(** * Exponential smoothing and Holt-Winters forecasting

    A shallow embedding of [src/exp-smoothing.ts] and [src/errors.ts].

    Numbers.  A JavaScript [number] is an IEEE 754 binary64 value; it is
    modelled by Rocq's primitive [float], which is the same format with the
    same rounding (to nearest, ties to even) and one NaN.  Loop counters,
    array lengths, [seasonLength] and [numPredictions] hold integers in the
    source; they are modelled by [Z], and [Z2F] converts them where the
    source uses them in floating-point arithmetic.  The embedding therefore
    covers integer-valued [seasonLength] and [numPredictions] (of any sign)
    below 2^53 in magnitude, where the source's arithmetic on them is exact.

    Arrays.  A JavaScript array is a [list jsval]; reading outside the array
    gives [Undefined], which arithmetic coerces to NaN ([toNumber]); an
    assignment past the end extends the array.  An argument typed
    [Array<number>] is an [option (list float)], [None] standing for
    [null]/[undefined].

    Results.  [holtWinters] and [holtWintersPartitioned] return an [option]:
    [None] means that the call does not return (see [holtWinters]). *)

From Stdlib Require Import ZArith List Bool Lia.
From Stdlib Require Import Floats.
Import ListNotations.

Local Open Scope Z_scope.

(** ** JavaScript values and arrays *)

Inductive jsval : Type :=
| Num (x : float)
| Undefined.

(** ToNumber, as applied by the arithmetic operators. *)
Definition toNumber (v : jsval) : float :=
  match v with
  | Num x => x
  | Undefined => nan
  end.

Definition array : Type := list jsval.

(** [a.length] *)
Definition alen (a : array) : Z := Z.of_nat (length a).

(** [a[i]] as an expression. *)
Definition aget (a : array) (i : Z) : jsval :=
  if i <? 0 then Undefined else nth (Z.to_nat i) a Undefined.

(** [a[i] = v].  Inside the array the element is replaced; at or past the
    end the array grows, the skipped positions reading as [Undefined].  The
    source never assigns at a negative index. *)
Fixpoint aset_nat (a : array) (i : nat) (v : jsval) : array :=
  match i, a with
  | O, [] => [v]
  | O, _ :: t => v :: t
  | S i', [] => Undefined :: aset_nat [] i' v
  | S i', x :: t => x :: aset_nat t i' v
  end.

Definition aset (a : array) (i : Z) (v : jsval) : array :=
  if i <? 0 then a else aset_nat a (Z.to_nat i) v.

(** [a.push(v)] *)
Definition push (a : array) (v : jsval) : array := a ++ [v].

(** An [Array<number>] argument seen as an array. *)
Definition nums (d : list float) : array := map Num d.

(** [data[i]] for an [Array<number>] argument. *)
Definition dget (d : list float) (i : Z) : jsval := aget (nums d) i.

(** ** Integers as numbers *)

(** The number holding the integer [z]: exact for |z| <= 2^53, rounded to
    nearest beyond, for |z| < 2^63. *)
Definition Z2F (z : Z) : float :=
  match z with
  | Z0 => 0%float
  | Zpos _ => of_uint63 (Uint63.of_Z z)
  | Zneg p => (- of_uint63 (Uint63.of_Z (Zpos p)))%float
  end.

(** ** Counted loops *)

(** [iter_from k i body s]: [k] iterations of [body], the counter starting
    at [i] and incremented after each one. *)
Fixpoint iter_from {S : Type} (k : nat) (i : Z) (body : Z -> S -> S) (s : S) : S :=
  match k with
  | O => s
  | Datatypes.S k' => iter_from k' (i + 1) body (body i s)
  end.

(** [for (i = lo; i < hi; ++i) body] with loop-invariant integer bounds. *)
Definition for_range {S : Type} (lo hi : Z) (body : Z -> S -> S) (s : S) : S :=
  iter_from (Z.to_nat (hi - lo)) lo body s.

(** ** Comparisons the source writes with [<=] and [>=] *)

Definition geb (x y : float) : bool := (y <=? x)%float.
Definition gtb (x y : float) : bool := (y <? x)%float.

(** ** Single exponential smoothing *)

(** [isNaN(alpha) || alpha <= 0 || alpha >= 1] *)
Definition expSmooth_bad_alpha (alpha : float) : bool :=
  is_nan alpha || (alpha <=? 0)%float || geb alpha 1.

Definition expSmooth_body (data : list float) (alpha : float) (i : Z) (smoothed : array) : array :=
  aset smoothed i
       (Num (alpha * toNumber (dget data (i - 1))
             + (1 - alpha) * toNumber (aget smoothed (i - 1)))%float).

Definition expSmooth (data : option (list float)) (alpha : float) : array :=
  match data with
  | None => []
  | Some data =>
    if alen (nums data) =? 1 then []
    else if expSmooth_bad_alpha alpha then []
    else
      let n := alen (nums data) in
      let smoothed := aset [] 0 (Num 0) in
      let smoothed := aset smoothed 1 (dget data 0) in
      for_range 2 n (expSmooth_body data alpha) smoothed
  end.

(** ** Double exponential smoothing *)

(** [isNaN(x) || x < 0 || x > 1], the parameter check of [doubleExpSmooth]
    and of both Holt-Winters functions. *)
Definition outside01 (x : float) : bool :=
  is_nan x || (x <? 0)%float || gtb x 1.

(** The loop body updates both arrays. *)
Definition doubleExpSmooth_body (data : list float) (alpha gamma : float)
           (i : Z) (st : array * array) : array * array :=
  let '(smoothed, b) := st in
  let smoothed :=
    aset smoothed i
         (Num (alpha * toNumber (dget data i)
               + (1 - alpha) * (toNumber (aget smoothed (i - 1))
                                + toNumber (aget b (i - 1))))%float) in
  let b :=
    aset b i
         (Num (gamma * (toNumber (aget smoothed i) - toNumber (aget smoothed (i - 1)))
               + (1 - gamma) * toNumber (aget b (i - 1)))%float) in
  (smoothed, b).

Definition doubleExpSmooth (data : option (list float)) (alpha gamma : float) : array :=
  match data with
  | None => []
  | Some data =>
    if alen (nums data) <? 2 then []
    else if outside01 alpha then []
    else if outside01 gamma then []
    else
      let n := alen (nums data) in
      let smoothed := aset [] 0 (Num 0) in
      let b := aset [] 0 (Num 0) in
      let smoothed := aset smoothed 1 (dget data 0) in
      let b := aset b 1 (Num (toNumber (dget data 1) - toNumber (dget data 0))%float) in
      fst (for_range 2 n (doubleExpSmooth_body data alpha gamma) (smoothed, b))
  end.

(** ** Holt-Winters *)

(** *** Phase A: initial trend (lines 132-140 and 231-239) *)

Definition initialTrend_body (data : list float) (seasonLength : Z) (i : Z) (sum : float) : float :=
  (sum + (toNumber (dget data (i + seasonLength)) - toNumber (dget data i))
         / Z2F seasonLength)%float.

Definition initialTrend (data : list float) (seasonLength : Z) : float :=
  let sum := for_range 0 seasonLength (initialTrend_body data seasonLength) 0%float in
  (sum / Z2F seasonLength)%float.

(** *** Phase B: initial seasonal indices (lines 142-168 and 241-267) *)

Definition seasonAverages_body (data : list float) (seasonLength : Z)
           (j : Z) (seasonAverages : array) : array :=
  let sum :=
    for_range (seasonLength * j) (seasonLength * j + seasonLength)
              (fun i sum => (sum + toNumber (dget data i))%float) 0%float in
  push seasonAverages (Num (sum / Z2F seasonLength)%float).

Definition initialSeasonals_body (data : list float) (seasonLength numSeasons : Z)
           (seasonAverages : array) (i : Z) (seasonals : array) : array :=
  let sum :=
    for_range 0 numSeasons
              (fun j sum => (sum + (toNumber (dget data (seasonLength * j + i))
                                    - toNumber (aget seasonAverages j)))%float) 0%float in
  aset seasonals i (Num (sum / Z2F numSeasons)%float).

(** [numSeasons] is [Math.floor(n/seasonLength)]; for a nonzero
    [seasonLength] that is the floor division of the two integers. *)
Definition initialSeasonals (data : list float) (seasonLength : Z) : array :=
  let n := alen (nums data) in
  let numSeasons := n / seasonLength in
  let seasonAverages := for_range 0 numSeasons (seasonAverages_body data seasonLength) [] in
  for_range 0 seasonLength
            (initialSeasonals_body data seasonLength numSeasons seasonAverages) [].

(** *** Phase C: the main loop of [holtWinters] (lines 170-203) *)

Record hw_state : Type := mk_hw_state {
  smooth : float;
  trend : float;
  seasonals : array;
  hw_predictions : array
}.

(** [i % seasonLength] on integers: the remainder has the sign of [i]. *)
Definition jsmod (i seasonLength : Z) : Z := Z.rem i seasonLength.

Definition holtWinters_body (data : list float) (alpha beta gamma : float)
           (seasonLength n : Z) (i : Z) (st : hw_state) : hw_state :=
  if i =? 0 then
    mk_hw_state (toNumber (dget data 0)) (trend st) (seasonals st)
                (push (hw_predictions st) (dget data 0))
  else if n <=? i then
    let m := i - n + 1 in
    mk_hw_state (smooth st) (trend st) (seasonals st)
                (push (hw_predictions st)
                      (Num ((smooth st + Z2F m * trend st)
                            + toNumber (aget (seasonals st) (jsmod i seasonLength)))%float))
  else
    let lastSmooth := smooth st in
    let val := toNumber (dget data i) in
    let smooth' :=
      (alpha * (val - toNumber (aget (seasonals st) (jsmod i seasonLength)))
       + (1 - alpha) * (smooth st + trend st))%float in
    let trend' := (beta * (smooth' - lastSmooth) + (1 - beta) * trend st)%float in
    let seasonals' :=
      aset (seasonals st) (jsmod i seasonLength)
           (Num (gamma * (val - smooth')
                 + (1 - gamma) * toNumber (aget (seasonals st) (jsmod i seasonLength)))%float) in
    mk_hw_state smooth' trend' seasonals'
                (push (hw_predictions st)
                      (Num (smooth' + trend'
                            + toNumber (aget seasonals' (jsmod i seasonLength)))%float)).

(** The state on entry to the main loop; [smooth] is declared without a
    value and assigned in the first iteration. *)
Definition hw_init (data : list float) (seasonLength : Z) : hw_state :=
  mk_hw_state nan (initialTrend data seasonLength) (initialSeasonals data seasonLength) [].

(** The main loop run for the counter values [0 .. k-1]. *)
Definition hw_loop (data : list float) (alpha beta gamma : float)
           (seasonLength : Z) (k : Z) : hw_state :=
  for_range 0 k (holtWinters_body data alpha beta gamma seasonLength (alen (nums data)))
            (hw_init data seasonLength).

(** The three parameter checks. *)
Definition hw_bad_params (alpha beta gamma : float) : bool :=
  outside01 alpha || outside01 beta || outside01 gamma.

(** With [seasonLength = 0] and at least three samples,
    [numSeasons = Math.floor(n/0)] is [Infinity]: the condition of the
    seasonal-averages loop [for (j = 0; j < numSeasons; ++j)] never fails,
    every iteration pushes onto [seasonAverages], and the call ends, if at
    all, when that array can grow no further.  It returns no array: that is
    the [None] below. *)
Definition holtWinters (data : option (list float)) (alpha beta gamma : float)
           (seasonLength numPredictions : Z) : option array :=
  match data with
  | None => Some []
  | Some data =>
    let n := alen (nums data) in
    if n <? 3 then Some []
    else if hw_bad_params alpha beta gamma then Some []
    else if seasonLength =? 0 then None
    else Some (hw_predictions
                 (hw_loop data alpha beta gamma seasonLength (n + numPredictions)))
  end.

(** *** [holtWintersPartitioned] (lines 206-304) *)

Record partition : Type := mk_partition {
  smoothed : array;
  predictions : array
}.

Definition EMPTY_PARTITION : partition := mk_partition [] [].

Record hwp_state : Type := mk_hwp_state {
  p_smooth : float;
  p_trend : float;
  p_seasonals : array;
  p_smoothed : array;
  p_predictions : array
}.

Definition holtWintersPartitioned_body (data : list float) (alpha beta gamma : float)
           (seasonLength n : Z) (i : Z) (st : hwp_state) : hwp_state :=
  if i =? 0 then
    mk_hwp_state (toNumber (dget data 0)) (p_trend st) (p_seasonals st)
                 (push (p_smoothed st) (dget data 0)) (p_predictions st)
  else if n <=? i then
    let m := i - n + 1 in
    mk_hwp_state (p_smooth st) (p_trend st) (p_seasonals st)
                 (p_smoothed st)
                 (push (p_predictions st)
                       (Num ((p_smooth st + Z2F m * p_trend st)
                             + toNumber (aget (p_seasonals st) (jsmod i seasonLength)))%float))
  else
    let lastSmooth := p_smooth st in
    let val := toNumber (dget data i) in
    let smooth' :=
      (alpha * (val - toNumber (aget (p_seasonals st) (jsmod i seasonLength)))
       + (1 - alpha) * (p_smooth st + p_trend st))%float in
    let trend' := (beta * (smooth' - lastSmooth) + (1 - beta) * p_trend st)%float in
    let seasonals' :=
      aset (p_seasonals st) (jsmod i seasonLength)
           (Num (gamma * (val - smooth')
                 + (1 - gamma) * toNumber (aget (p_seasonals st) (jsmod i seasonLength)))%float) in
    mk_hwp_state smooth' trend' seasonals'
                 (push (p_smoothed st)
                       (Num (smooth' + trend'
                             + toNumber (aget seasonals' (jsmod i seasonLength)))%float))
                 (p_predictions st).

Definition hwp_init (data : list float) (seasonLength : Z) : hwp_state :=
  mk_hwp_state nan (initialTrend data seasonLength) (initialSeasonals data seasonLength) [] [].

Definition hwp_loop (data : list float) (alpha beta gamma : float)
           (seasonLength : Z) (k : Z) : hwp_state :=
  for_range 0 k (holtWintersPartitioned_body data alpha beta gamma seasonLength
                                              (alen (nums data)))
            (hwp_init data seasonLength).

Definition holtWintersPartitioned (data : option (list float)) (alpha beta gamma : float)
           (seasonLength numPredictions : Z) : option partition :=
  match data with
  | None => Some EMPTY_PARTITION
  | Some data =>
    let n := alen (nums data) in
    if n <? 3 then Some EMPTY_PARTITION
    else if hw_bad_params alpha beta gamma then Some EMPTY_PARTITION
    else if seasonLength =? 0 then None
    else
      let st := hwp_loop data alpha beta gamma seasonLength (n + numPredictions) in
      Some (mk_partition (p_smoothed st) (p_predictions st))
  end.

(** ** Error metrics ([src/errors.ts]) *)

Definition sumSqError_body (predictions actual : list float) (i : Z) (sum : float) : float :=
  let error := (toNumber (dget predictions i) - toNumber (dget actual i))%float in
  (sum + error * error)%float.

Definition sumSqError (predictions actual : option (list float)) : float :=
  match predictions with
  | None => (-1)%float
  | Some p =>
    if alen (nums p) =? 0 then (-1)%float
    else
      match actual with
      | None => (-1)%float
      | Some a =>
        if alen (nums a) =? 0 then (-1)%float
        else if negb (alen (nums p) =? alen (nums a)) then (-1)%float
        else
          let n := alen (nums p) in
          for_range 0 n (sumSqError_body p a) 0%float
      end
  end.

Definition mse (predictions actual : option (list float)) : float :=
  match predictions with
  | None => (-1)%float
  | Some p =>
    if alen (nums p) =? 0 then (-1)%float
    else
      match actual with
      | None => (-1)%float
      | Some a =>
        if alen (nums a) =? 0 then (-1)%float
        else if negb (alen (nums p) =? alen (nums a)) then (-1)%float
        else
          let n := alen (nums p) in
          (sumSqError predictions actual / Z2F n)%float
      end
  end.

(** * Vocabulary of the specification

    The definitions below are not part of the source: they are the words in
    which the properties are stated and proved. *)

(** ** Parameter ranges *)

(** [x] lies in the closed interval [[0,1]]. *)
Definition in01 (x : float) : bool := (0 <=? x)%float && (x <=? 1)%float.

(** [x] lies strictly inside [(0,1)]. *)
Definition strictly_in01 (x : float) : bool := (0 <? x)%float && (x <? 1)%float.

(** [x] is NaN or lies outside [[0,1]]. *)
Definition nan_or_outside01 (x : float) : bool := is_nan x || negb (in01 x).

(** Holt-Winters input that the spec calls invalid: the data is absent or
    has fewer than 3 elements, or one of [alpha], [beta], [gamma] is NaN or
    lies outside [[0,1]]. *)
Definition hw_rejects (data : option (list float)) (alpha beta gamma : float) : bool :=
  match data with
  | None => true
  | Some d =>
    (alen (nums d) <? 3)
    || nan_or_outside01 alpha || nan_or_outside01 beta || nan_or_outside01 gamma
  end.

(** The length of the data, 0 when there is none. *)
Definition data_length (data : option (list float)) : Z :=
  match data with
  | None => 0
  | Some d => alen (nums d)
  end.

(** Input that the spec calls invalid for the error metrics: a sequence is
    absent or empty, or the lengths differ. *)
Definition metric_invalid (predictions actual : option (list float)) : bool :=
  match predictions, actual with
  | None, _ => true
  | Some p, None => true
  | Some p, Some a =>
    (alen (nums p) =? 0) || (alen (nums a) =? 0) || negb (alen (nums p) =? alen (nums a))
  end.

(** ** Sums and formulas *)

(** The indices [0, 1, ..., k-1]. *)
Definition zrange (k : Z) : list Z := map Z.of_nat (seq 0 (Z.to_nat k)).

(** The sum of [f i] for [i] from [0] to [k-1], accumulated from 0 in
    index order (floating-point addition is not associative). *)
Definition fsum (f : Z -> float) (k : Z) : float :=
  fold_left (fun acc i => (acc + f i)%float) (zrange k) 0%float.

(** [d[i]] for an index inside the sequence [d]. *)
Definition at_index (d : list float) (i : Z) : float := nth (Z.to_nat i) d 0%float.

(** Phase A in the spec's words: the deltas one season ahead, each divided
    by [seasonLength], summed, and the sum divided by [seasonLength]. *)
Definition spec_initialTrend (data : list float) (seasonLength : Z) : float :=
  (fsum (fun i => (at_index data (i + seasonLength) - at_index data i) / Z2F seasonLength)
        seasonLength
   / Z2F seasonLength)%float.

(** Phase B, first part: the mean of season [j], the samples
    [data[seasonLength*j]], ..., [data[seasonLength*j + seasonLength - 1]]
    summed in that order and divided by [seasonLength]. *)
Definition spec_seasonAverage (data : list float) (seasonLength j : Z) : float :=
  (fsum (fun t => at_index data (seasonLength * j + t)) seasonLength
   / Z2F seasonLength)%float.

(** Phase B, second part: the initial seasonal index of offset [i], the
    deviations [data[seasonLength*j + i] - seasonAverages[j]] summed over
    the [numSeasons] complete seasons and divided by [numSeasons]. *)
Definition spec_initialSeasonal (data : list float) (seasonLength i : Z) : float :=
  let numSeasons := alen (nums data) / seasonLength in
  (fsum (fun j => at_index data (seasonLength * j + i)
                  - spec_seasonAverage data seasonLength j) numSeasons
   / Z2F numSeasons)%float.

(** The sum over [i] of [(predictions[i] - actual[i])^2]. *)
Definition spec_sumSq (p a : list float) : float :=
  fsum (fun i => ((at_index p i - at_index a i) * (at_index p i - at_index a i))%float)
       (alen (nums p)).

(** ** The reference suite ([__tests__/exp.specs.ts]) *)

(** The decimal literals of the suite are read as JavaScript reads them,
    as the nearest binary64 value. *)
#[local] Set Warnings "-inexact-float".

Definition TEST_SERIES : list float :=
  [30; 21; 29; 31; 40; 48; 53; 47; 37; 39; 31; 29; 17; 9; 20; 24; 27; 35; 41; 38;
   27; 31; 27; 26; 21; 13; 21; 18; 33; 35; 40; 36; 22; 24; 21; 20; 17; 14; 17; 19;
   26; 29; 40; 31; 20; 24; 18; 26; 17; 9; 17; 21; 28; 32; 46; 33; 23; 28; 22; 27;
   18; 8; 17; 21; 31; 34; 44; 38; 31; 30; 26; 32]%float.

(** [expect(x).toBeCloseTo(e, 4)]: [|e - x| < 0.00005]. *)
Definition close_to_4 (x : jsval) (e : float) : bool :=
  (abs (e - toNumber x) <? 0.00005)%float.

Fixpoint all_close_to_4 (xs : array) (es : list float) : bool :=
  match xs, es with
  | [], [] => true
  | x :: xs', e :: es' => close_to_4 x e && all_close_to_4 xs' es'
  | _, _ => false
  end.

(** The ten forecasts that the suite expects from the Holt-Winters tests. *)
Definition expected_forecasts : list float :=
  [22.42511411230803; 15.34337175522306; 24.14282581581347; 27.02259921391996;
   35.31139046245393; 38.99901466933735; 49.24328387569265; 40.84636009563803;
   31.20518050370701; 32.96259980122959]%float.

(** ** Loop invariants *)

(** The invariant of the loop of [expSmooth]: on entry to iteration [i]
    the array holds [i] elements obeying the recurrence. *)
Definition expSmooth_inv (data : list float) (alpha : float) (i : Z) (sm : array) : Prop :=
  alen sm = i /\
  aget sm 0 = Num 0 /\
  aget sm 1 = dget data 0 /\
  forall j, 2 <= j < i ->
    aget sm j = Num (alpha * toNumber (dget data (j - 1))
                     + (1 - alpha) * toNumber (aget sm (j - 1)))%float.

(** The invariant of the loop of [doubleExpSmooth]: on entry to iteration
    [i] both arrays hold [i] elements obeying the two recurrences. *)
Definition doubleExpSmooth_inv (data : list float) (alpha gamma : float)
           (i : Z) (st : array * array) : Prop :=
  let sm := fst st in
  let b := snd st in
  alen sm = i /\ alen b = i /\
  aget sm 0 = Num 0 /\ aget b 0 = Num 0 /\
  aget sm 1 = dget data 0 /\
  aget b 1 = Num (toNumber (dget data 1) - toNumber (dget data 0))%float /\
  forall j, 2 <= j < i ->
    aget sm j = Num (alpha * toNumber (dget data j)
                     + (1 - alpha) * (toNumber (aget sm (j - 1))
                                      + toNumber (aget b (j - 1))))%float /\
    aget b j = Num (gamma * (toNumber (aget sm j) - toNumber (aget sm (j - 1)))
                    + (1 - gamma) * toNumber (aget b (j - 1)))%float.

(** The main loops of [holtWinters] and [holtWintersPartitioned] side by
    side, before iteration [k], on [n] samples: same level, trend and
    seasonal indices; the single output array is the two partitioned ones
    put end to end; nothing is in [predictions] while the counter is within
    the samples. *)
Definition hw_sim (n k : Z) (st : hw_state) (pst : hwp_state) : Prop :=
  smooth st = p_smooth pst /\
  trend st = p_trend pst /\
  seasonals st = p_seasonals pst /\
  hw_predictions st = p_smoothed pst ++ p_predictions pst /\
  (k <= n -> p_predictions pst = []).

(** ** Floating-point values through their specification *)

(** Two values that differ at most in their sign. *)
Definition same_magnitude (u v : spec_float) : Prop :=
  match u, v with
  | S754_nan, S754_nan => True
  | S754_zero _, S754_zero _ => True
  | S754_infinity _, S754_infinity _ => True
  | S754_finite _ m e, S754_finite _ m' e' => m = m' /\ e = e'
  | _, _ => False
  end.

(** The sign bit is clear (or the value is NaN). *)
Definition sign_clear (x : spec_float) : Prop :=
  match x with
  | S754_zero s | S754_infinity s | S754_finite s _ _ => s = false
  | S754_nan => True
  end.

(** * Properties *)

(** ** Counted loops *)

Lemma iter_from_snoc {S : Type} (k : nat) (i : Z) (body : Z -> S -> S) (s : S) :
  iter_from (Datatypes.S k) i body s
  = body (i + Z.of_nat k) (iter_from k i body s).
Proof.
  revert i s. induction k as [|k IH]; intros i s.
  - simpl. now rewrite Z.add_0_r.
  - change (iter_from (Datatypes.S (Datatypes.S k)) i body s)
      with (iter_from (Datatypes.S k) (i + 1) body (body i s)).
    rewrite IH. simpl iter_from. f_equal. lia.
Qed.

Lemma for_range_empty {S : Type} (lo hi : Z) (body : Z -> S -> S) (s : S) :
  hi <= lo -> for_range lo hi body s = s.
Proof.
  intros H. unfold for_range.
  replace (Z.to_nat (hi - lo)) with O by lia. reflexivity.
Qed.

(** One more iteration at the end of the range. *)
Lemma for_range_succ {S : Type} (lo hi : Z) (body : Z -> S -> S) (s : S) :
  lo <= hi -> for_range lo (hi + 1) body s = body hi (for_range lo hi body s).
Proof.
  intros H. unfold for_range.
  replace (Z.to_nat (hi + 1 - lo)) with (Datatypes.S (Z.to_nat (hi - lo))) by lia.
  rewrite iter_from_snoc. f_equal. lia.
Qed.

(** Loop invariants: [P i s] relates the counter to the state. *)
Lemma for_range_invariant {S : Type} (P : Z -> S -> Prop)
      (lo hi : Z) (body : Z -> S -> S) (s : S) :
  lo <= hi ->
  P lo s ->
  (forall i t, lo <= i < hi -> P i t -> P (i + 1) (body i t)) ->
  P hi (for_range lo hi body s).
Proof.
  intros Hle H0 Hstep.
  pattern hi.
  refine (Zlt_lower_bound_ind (fun h => lo <= h <= hi -> P h (for_range lo h body s))
                              lo _ hi Hle (conj Hle (Z.le_refl hi))).
  intros h IH Hlo Hb.
  destruct (Z.eq_dec h lo) as [->|Hne].
  - now rewrite for_range_empty by lia.
  - replace h with (h - 1 + 1) by lia.
    rewrite for_range_succ by lia.
    apply Hstep; [lia|]. apply IH; lia.
Qed.

(** Two loops over the same range, related step by step. *)
Lemma for_range_related {S T : Type} (R : Z -> S -> T -> Prop)
      (lo hi : Z) (f : Z -> S -> S) (g : Z -> T -> T) (s : S) (t : T) :
  lo <= hi ->
  R lo s t ->
  (forall i s' t', lo <= i < hi -> R i s' t' -> R (i + 1) (f i s') (g i t')) ->
  R hi (for_range lo hi f s) (for_range lo hi g t).
Proof.
  intros Hle H0 Hstep.
  pose (P := fun (i : Z) (st : S * T) => R i (fst st) (snd st)).
  assert (Hpair : forall h, lo <= h ->
            for_range lo h (fun i st => (f i (fst st), g i (snd st))) (s, t)
            = (for_range lo h f s, for_range lo h g t)).
  { intros h Hh.
    refine (Zlt_lower_bound_ind
              (fun h => for_range lo h (fun i st => (f i (fst st), g i (snd st))) (s, t)
                        = (for_range lo h f s, for_range lo h g t)) lo _ h Hh).
    intros x IH Hx.
    destruct (Z.eq_dec x lo) as [->|Hne].
    - now rewrite !for_range_empty by lia.
    - replace x with (x - 1 + 1) by lia.
      rewrite !for_range_succ by lia.
      rewrite IH by lia. reflexivity. }
  assert (HP : P hi (for_range lo hi (fun i st => (f i (fst st), g i (snd st))) (s, t))).
  { apply for_range_invariant; auto.
    intros i [a b] Hi Hab. unfold P in *. simpl in *. now apply Hstep. }
  rewrite Hpair in HP by exact Hle. exact HP.
Qed.

(** Bodies that agree on the range give the same loop. *)
Lemma for_range_ext {S : Type} (lo hi : Z) (f g : Z -> S -> S) (s : S) :
  (forall i t, lo <= i < hi -> f i t = g i t) ->
  for_range lo hi f s = for_range lo hi g s.
Proof.
  intros Hfg.
  destruct (Z.le_gt_cases lo hi) as [Hle|Hgt].
  - apply (for_range_related (fun _ a b => a = b)); auto.
    intros i s' t' Hi ->. now apply Hfg.
  - now rewrite !for_range_empty by lia.
Qed.

(** ** Arrays *)

Lemma aset_nat_end (a : array) (v : jsval) : aset_nat a (length a) v = a ++ [v].
Proof. induction a as [|x a IH]; simpl; [reflexivity|now rewrite IH]. Qed.

(** Assigning at index [a.length] is a push. *)
Lemma aset_end (a : array) (i : Z) (v : jsval) : i = alen a -> aset a i v = push a v.
Proof.
  intros ->. unfold aset, alen, push.
  destruct (Z.ltb_spec (Z.of_nat (length a)) 0); [lia|].
  rewrite Nat2Z.id. apply aset_nat_end.
Qed.

Lemma alen_push (a : array) (v : jsval) : alen (push a v) = alen a + 1.
Proof. unfold alen, push. rewrite length_app. simpl. lia. Qed.

Lemma alen_nonneg (a : array) : 0 <= alen a.
Proof. unfold alen. lia. Qed.

Lemma aget_push_old (a : array) (v : jsval) (i : Z) :
  i < alen a -> aget (push a v) i = aget a i.
Proof.
  unfold aget, push, alen. intros Hi.
  destruct (Z.ltb_spec i 0); [reflexivity|].
  apply app_nth1. lia.
Qed.

Lemma aget_push_new (a : array) (v : jsval) : aget (push a v) (alen a) = v.
Proof.
  unfold aget, push, alen.
  destruct (Z.ltb_spec (Z.of_nat (length a)) 0); [lia|].
  rewrite Nat2Z.id, app_nth2 by apply Nat.le_refl.
  now rewrite Nat.sub_diag.
Qed.

Lemma aget_app_right (a b : array) (i : Z) :
  alen a <= i -> aget (a ++ b) i = aget b (i - alen a).
Proof.
  unfold aget, alen. intros Hi.
  destruct (Z.ltb_spec i 0); [lia|].
  destruct (Z.ltb_spec (i - Z.of_nat (length a)) 0); [lia|].
  rewrite app_nth2 by lia. f_equal. lia.
Qed.

Lemma alen_nums (d : list float) : alen (nums d) = Z.of_nat (length d).
Proof. unfold alen, nums. now rewrite length_map. Qed.

(** Inside the array, [data[i]] is the number stored there. *)
Lemma dget_in_range (d : list float) (i : Z) (x : float) :
  0 <= i < alen (nums d) -> dget d i = Num (nth (Z.to_nat i) d x).
Proof.
  intros Hi. rewrite alen_nums in Hi. unfold dget, aget, nums.
  destruct (Z.ltb_spec i 0); [lia|].
  rewrite (nth_indep _ Undefined (Num x)) by (rewrite length_map; lia).
  apply (map_nth Num).
Qed.

(** ** Floating-point facts

    Proved through the specification of the primitive operations
    ([Prim2SF], [SFadd], [SFmul], ...). *)

Lemma binary_round_aux_same_magnitude (s s' : bool) (m e : Z) (l : location) :
  same_magnitude (binary_round_aux prec emax s m e l)
                 (binary_round_aux prec emax s' m e l).
Proof.
  unfold binary_round_aux.
  destruct (shr_fexp prec emax m e l) as [mrs' e'].
  destruct (shr_fexp prec emax _ e' loc_Exact) as [mrs'' e''].
  destruct (shr_m mrs''); try exact I.
  destruct (Z.leb e'' (Z.sub emax prec)); [split; reflexivity|exact I].
Qed.

Lemma binary_round_aux_sign_clear (m e : Z) (l : location) :
  sign_clear (binary_round_aux prec emax false m e l).
Proof.
  unfold binary_round_aux.
  destruct (shr_fexp prec emax m e l) as [mrs' e'].
  destruct (shr_fexp prec emax _ e' loc_Exact) as [mrs'' e''].
  destruct (shr_m mrs''); try exact I; try reflexivity.
  destruct (Z.leb e'' (Z.sub emax prec)); reflexivity.
Qed.

Lemma binary_round_same_magnitude (s s' : bool) (m : positive) (e : Z) :
  same_magnitude (binary_round prec emax s m e) (binary_round prec emax s' m e).
Proof.
  unfold binary_round.
  destruct (shl_align m e _) as [mz ez].
  apply binary_round_aux_same_magnitude.
Qed.

Lemma binary_round_sign_clear (m : positive) (e : Z) :
  sign_clear (binary_round prec emax false m e).
Proof.
  unfold binary_round.
  destruct (shl_align m e _) as [mz ez].
  apply binary_round_aux_sign_clear.
Qed.

Lemma binary_normalize_opp (m e : Z) :
  same_magnitude (binary_normalize prec emax m e false)
                 (binary_normalize prec emax (- m) e false).
Proof.
  destruct m as [|p|p]; simpl Z.opp; unfold binary_normalize.
  - exact I.
  - apply binary_round_same_magnitude.
  - apply binary_round_same_magnitude.
Qed.

(** [x - y] and [y - x] differ at most in sign. *)
Lemma SFsub_swap (x y : spec_float) :
  same_magnitude (SF64sub x y) (SF64sub y x).
Proof.
  destruct x as [sx|sx| |sx mx ex], y as [sy|sy| |sy my ey];
    try (destruct sx; exact I); try (destruct sy; exact I);
    try (destruct sx, sy; exact I); try exact I;
    try (split; reflexivity).
  unfold SF64sub, SFsub.
  rewrite (Z.min_comm ey ex).
  set (ez := Z.min ex ey).
  set (a := cond_Zopp sx (Zpos (fst (shl_align mx ex ez)))).
  set (b := cond_Zopp sy (Zpos (fst (shl_align my ey ez)))).
  replace (Z.sub b a) with (- (Z.sub a b)) by lia.
  apply binary_normalize_opp.
Qed.

(** The square does not see the sign. *)
Lemma SFmul_self (u v : spec_float) :
  same_magnitude u v -> SF64mul u u = SF64mul v v.
Proof.
  destruct u as [s|s| |s m e], v as [s'|s'| |s' m' e']; simpl; intros H;
    try contradiction; try reflexivity.
  - destruct s, s'; reflexivity.
  - destruct s, s'; reflexivity.
  - destruct H as [-> ->]. unfold SF64mul, SFmul.
    destruct s, s'; reflexivity.
Qed.

Lemma SFmul_self_sign_clear (u : spec_float) : sign_clear (SF64mul u u).
Proof.
  destruct u as [s|s| |s m e]; try exact I.
  - destruct s; reflexivity.
  - destruct s; reflexivity.
  - unfold SF64mul, SFmul.
    replace (xorb s s) with false by (destruct s; reflexivity).
    apply binary_round_aux_sign_clear.
Qed.

Lemma SFadd_sign_clear (u v : spec_float) :
  sign_clear u -> sign_clear v -> sign_clear (SF64add u v).
Proof.
  destruct u as [s|s| |s m e], v as [s'|s'| |s' m' e']; simpl;
    intros Hu Hv; subst; try exact I; try reflexivity.
  unfold SF64add, SFadd, cond_Zopp, binary_normalize.
  simpl Z.add. apply binary_round_sign_clear.
Qed.

Lemma SFdiv_sign_clear (u v : spec_float) :
  sign_clear u -> sign_clear v -> sign_clear (SF64div u v).
Proof.
  destruct u as [s|s| |s m e], v as [s'|s'| |s' m' e']; simpl;
    intros Hu Hv; subst; try exact I; try reflexivity.
  unfold SF64div, SFdiv.
  destruct (SFdiv_core_binary prec emax (Zpos m) e (Zpos m') e') as [[mz ez] lz].
  apply binary_round_aux_sign_clear.
Qed.

(** The square of a difference is the same both ways round. *)
Lemma sq_sub_comm (x y : float) :
  ((x - y) * (x - y) = (y - x) * (y - x))%float.
Proof.
  apply Prim2SF_inj. rewrite !mul_spec, !sub_spec.
  apply SFmul_self, SFsub_swap.
Qed.

Lemma square_sign_clear (x : float) : sign_clear (Prim2SF (x * x)%float).
Proof. rewrite mul_spec. apply SFmul_self_sign_clear. Qed.

Lemma add_sign_clear (x y : float) :
  sign_clear (Prim2SF x) -> sign_clear (Prim2SF y) -> sign_clear (Prim2SF (x + y)%float).
Proof. rewrite add_spec. apply SFadd_sign_clear. Qed.

Lemma div_sign_clear (x y : float) :
  sign_clear (Prim2SF x) -> sign_clear (Prim2SF y) -> sign_clear (Prim2SF (x / y)%float).
Proof. rewrite div_spec. apply SFdiv_sign_clear. Qed.

Lemma of_uint63_sign_clear (n : Uint63.int) : sign_clear (Prim2SF (of_uint63 n)).
Proof.
  rewrite of_uint63_spec.
  pose proof (Uint63.to_Z_bounded n) as Hb.
  destruct (Uint63.to_Z n) as [|p|p]; unfold binary_normalize.
  - reflexivity.
  - apply binary_round_sign_clear.
  - lia.
Qed.

(** A non-negative integer is a number with a clear sign bit. *)
Lemma Z2F_sign_clear (z : Z) : 0 <= z -> sign_clear (Prim2SF (Z2F z)).
Proof.
  destruct z as [|p|p]; intros Hz; [reflexivity| |lia].
  apply of_uint63_sign_clear.
Qed.

Lemma sign_clear_not_minus_one (x : float) :
  sign_clear (Prim2SF x) -> x <> (-1)%float.
Proof. intros H ->. vm_compute in H. discriminate. Qed.

(** *** Comparisons *)

Lemma SFcompare_antisym (x y : spec_float) :
  SFcompare y x = option_map CompOpp (SFcompare x y).
Proof.
  destruct x as [sx|sx| |sx mx ex], y as [sy|sy| |sy my ey]; simpl;
    try reflexivity;
    try (destruct sx; reflexivity); try (destruct sy; reflexivity);
    try (destruct sx, sy; reflexivity).
  f_equal.
  rewrite (Z.compare_antisym ex ey).
  change (Pos.compare_cont Eq my mx) with (Pos.compare my mx).
  change (Pos.compare_cont Eq mx my) with (Pos.compare mx my).
  rewrite (Pos.compare_antisym mx my).
  destruct sx, sy; try reflexivity;
    destruct (ex ?= ey); simpl; try reflexivity;
    destruct (mx ?= my)%positive; reflexivity.
Qed.

Lemma SFcompare_refl (x : spec_float) :
  x <> S754_nan -> SFcompare x x = Some Eq.
Proof.
  destruct x as [s|s| |s m e]; simpl; intros H; try reflexivity.
  - destruct s; reflexivity.
  - congruence.
  - rewrite Z.compare_refl.
    change (Pos.compare_cont Eq m m) with (Pos.compare m m).
    rewrite Pos.compare_refl. destruct s; reflexivity.
Qed.

Lemma SFcompare_nan (x y : spec_float) :
  SFcompare x y = None <-> x = S754_nan \/ y = S754_nan.
Proof.
  destruct x as [sx|sx| |sx mx ex], y as [sy|sy| |sy my ey]; simpl;
    split; intros H; try discriminate; auto;
    destruct H as [H|H]; discriminate.
Qed.

Lemma is_nan_spec (x : float) : is_nan x = true <-> Prim2SF x = S754_nan.
Proof.
  unfold is_nan. rewrite FloatAxioms.eqb_spec. unfold SFeqb. split.
  - intros H. destruct (Prim2SF x) eqn:E; try reflexivity;
      rewrite SFcompare_refl in H by discriminate; discriminate.
  - intros ->. reflexivity.
Qed.

Lemma SFcompare_some_not_nan (x y : float) (c : comparison) :
  SFcompare (Prim2SF x) (Prim2SF y) = Some c -> is_nan x = false /\ is_nan y = false.
Proof.
  intros E. split; destruct (is_nan _) eqn:N; auto;
    apply is_nan_spec in N; rewrite N in E;
    [|destruct (Prim2SF x)]; discriminate.
Qed.

(** [x <= y] holds exactly when neither is NaN and [y < x] fails. *)
Lemma leb_iff (x y : float) :
  (x <=? y)%float = true
  <-> is_nan x = false /\ is_nan y = false /\ (y <? x)%float = false.
Proof.
  rewrite leb_spec, ltb_spec. unfold SFleb, SFltb.
  rewrite (SFcompare_antisym (Prim2SF x) (Prim2SF y)).
  destruct (SFcompare (Prim2SF x) (Prim2SF y)) as [c|] eqn:E.
  - destruct (SFcompare_some_not_nan _ _ _ E) as [Nx Ny].
    rewrite Nx, Ny. destruct c; simpl; split; auto; try discriminate.
    intros (_ & _ & H). discriminate.
  - split; [discriminate|]. intros (Nx & Ny & _).
    apply SFcompare_nan in E as [H|H]; apply is_nan_spec in H; congruence.
Qed.

(** [x < y] excludes NaN and [y <= x]. *)
Lemma ltb_true (x y : float) :
  (x <? y)%float = true
  -> is_nan x = false /\ is_nan y = false /\ (y <=? x)%float = false.
Proof.
  rewrite leb_spec, ltb_spec. unfold SFleb, SFltb.
  rewrite (SFcompare_antisym (Prim2SF x) (Prim2SF y)).
  destruct (SFcompare (Prim2SF x) (Prim2SF y)) as [c|] eqn:E; [|discriminate].
  destruct (SFcompare_some_not_nan _ _ _ E) as [Nx Ny].
  destruct c; simpl; intros H; try discriminate. auto.
Qed.

(** *** The parameter ranges and the source's checks *)

(** The check of [doubleExpSmooth] and Holt-Winters rejects exactly the
    numbers outside [[0,1]] and NaN. *)
Lemma outside01_in01 (x : float) : outside01 x = negb (in01 x).
Proof.
  unfold outside01, in01, gtb.
  destruct (0 <=? x)%float eqn:L0.
  - apply leb_iff in L0 as (_ & Nx & Lt0). rewrite Nx, Lt0. simpl.
    destruct (x <=? 1)%float eqn:L1.
    + apply leb_iff in L1 as (_ & _ & H). now rewrite H.
    + destruct (1 <? x)%float eqn:G; [reflexivity|].
      assert (H : (x <=? 1)%float = true) by (apply leb_iff; auto).
      congruence.
  - simpl. destruct (is_nan x) eqn:Nx; [reflexivity|]. simpl.
    destruct (x <? 0)%float eqn:Lt0; [reflexivity|].
    assert (H : (0 <=? x)%float = true) by (apply leb_iff; auto).
    congruence.
Qed.

(** The check of [expSmooth] accepts every number strictly inside (0,1). *)
Lemma strictly_in01_accepted (x : float) :
  strictly_in01 x = true -> expSmooth_bad_alpha x = false.
Proof.
  unfold strictly_in01, expSmooth_bad_alpha, geb.
  intros H. apply andb_true_iff in H as [H0 H1].
  apply ltb_true in H0 as (_ & Nx & L0).
  apply ltb_true in H1 as (_ & _ & L1).
  now rewrite Nx, L0, L1.
Qed.

Lemma nan_or_outside01_check (x : float) : nan_or_outside01 x = outside01 x.
Proof.
  unfold nan_or_outside01. rewrite outside01_in01.
  destruct (is_nan x) eqn:N; [|reflexivity].
  unfold in01. destruct (0 <=? x)%float eqn:L; [|reflexivity].
  apply leb_iff in L as (_ & Nx & _). congruence.
Qed.

Lemma hw_rejects_check (d : list float) (alpha beta gamma : float) :
  hw_rejects (Some d) alpha beta gamma
  = (alen (nums d) <? 3) || hw_bad_params alpha beta gamma.
Proof.
  unfold hw_rejects, hw_bad_params. rewrite !nan_or_outside01_check.
  now rewrite !orb_assoc.
Qed.

(** ** Single and double exponential smoothing *)

(** Induction on an integer from a lower bound. *)
Lemma Z_ind_from (lo : Z) (P : Z -> Prop) :
  P lo -> (forall k, lo <= k -> P k -> P (k + 1)) -> forall k, lo <= k -> P k.
Proof.
  intros H0 Hs k Hk.
  refine (Zlt_lower_bound_ind (fun k => P k) lo _ k Hk).
  intros x IH Hx.
  destruct (Z.eq_dec x lo) as [->|Hne]; [exact H0|].
  replace x with (x - 1 + 1) by lia. apply Hs; [lia|]. apply IH. lia.
Qed.

Lemma expSmooth_body_inv (data : list float) (alpha : float) (i : Z) (sm : array) :
  2 <= i -> expSmooth_inv data alpha i sm ->
  expSmooth_inv data alpha (i + 1) (expSmooth_body data alpha i sm).
Proof.
  intros Hi (Hlen & H0 & H1 & Hrec). unfold expSmooth_body.
  rewrite aset_end by (symmetry; exact Hlen).
  repeat split.
  - rewrite alen_push. lia.
  - rewrite aget_push_old by lia. exact H0.
  - rewrite aget_push_old by lia. exact H1.
  - intros j Hj. rewrite (aget_push_old _ _ (j - 1)) by lia.
    destruct (Z.eq_dec j i) as [->|Hne].
    + match goal with
      | |- aget (push sm ?v) _ = _ => pose proof (aget_push_new sm v) as E
      end.
      rewrite Hlen in E. exact E.
    + rewrite aget_push_old by lia. apply Hrec. lia.
Qed.

Lemma expSmooth_loop_inv (data : list float) (alpha : float) (n : Z) :
  2 <= n ->
  expSmooth_inv data alpha n
    (for_range 2 n (expSmooth_body data alpha)
               (aset (aset [] 0 (Num 0)) 1 (dget data 0))).
Proof.
  intros Hn. apply for_range_invariant; [exact Hn| |].
  - repeat split. intros j Hj. lia.
  - intros i t Hi Ht. apply expSmooth_body_inv; [lia|exact Ht].
Qed.

(** The result of [expSmooth] on accepted input. *)
Lemma expSmooth_accepted (data : list float) (alpha : float) :
  2 <= alen (nums data) -> expSmooth_bad_alpha alpha = false ->
  expSmooth (Some data) alpha
  = for_range 2 (alen (nums data)) (expSmooth_body data alpha)
              (aset (aset [] 0 (Num 0)) 1 (dget data 0)).
Proof.
  intros Hn Ha. unfold expSmooth.
  destruct (Z.eqb_spec (alen (nums data)) 1); [lia|].
  now rewrite Ha.
Qed.

(** The loop of [doubleExpSmooth] appends one element to each array. *)
Lemma doubleExpSmooth_loop_length (data : list float) (alpha gamma : float) (n : Z) (st : array * array) :
  2 <= n -> alen (fst st) = 2 -> alen (snd st) = 2 ->
  alen (fst (for_range 2 n (doubleExpSmooth_body data alpha gamma) st)) = n.
Proof.
  intros Hn Hs Hb.
  enough (H : alen (fst (for_range 2 n (doubleExpSmooth_body data alpha gamma) st)) = n
              /\ alen (snd (for_range 2 n (doubleExpSmooth_body data alpha gamma) st)) = n)
    by apply H.
  apply (for_range_invariant (fun i t => alen (fst t) = i /\ alen (snd t) = i));
    [exact Hn|auto|].
  intros i [sm b] Hi [Hsm Hbb]. simpl in Hsm, Hbb. unfold doubleExpSmooth_body.
  rewrite (aset_end sm) by (symmetry; exact Hsm).
  rewrite (aset_end b) by (symmetry; exact Hbb).
  simpl. rewrite !alen_push. lia.
Qed.

Lemma doubleExpSmooth_length (data : list float) (alpha gamma : float) :
  2 <= alen (nums data) -> outside01 alpha = false -> outside01 gamma = false ->
  alen (doubleExpSmooth (Some data) alpha gamma) = alen (nums data).
Proof.
  intros Hn Ha Hg. unfold doubleExpSmooth.
  destruct (Z.ltb_spec (alen (nums data)) 2); [lia|].
  rewrite Ha, Hg. apply doubleExpSmooth_loop_length; auto.
Qed.

(** ** Holt-Winters: the main loop *)

Section MainLoop.

Variables (data : list float) (alpha beta gamma : float) (seasonLength : Z).

Local Abbreviation len := (alen (nums data)).
Local Abbreviation body := (holtWinters_body data alpha beta gamma seasonLength len).
Local Abbreviation pbody := (holtWintersPartitioned_body data alpha beta gamma seasonLength len).
Local Abbreviation loop := (hw_loop data alpha beta gamma seasonLength).
Local Abbreviation ploop := (hwp_loop data alpha beta gamma seasonLength).

Lemma hw_loop_nonpos (k : Z) : k <= 0 -> loop k = hw_init data seasonLength.
Proof. intros Hk. unfold hw_loop. apply for_range_empty. exact Hk. Qed.

Lemma hw_loop_succ (k : Z) : 0 <= k -> loop (k + 1) = body k (loop k).
Proof. intros Hk. unfold hw_loop. now apply for_range_succ. Qed.

Lemma hwp_loop_nonpos (k : Z) : k <= 0 -> ploop k = hwp_init data seasonLength.
Proof. intros Hk. unfold hwp_loop. apply for_range_empty. exact Hk. Qed.

Lemma hwp_loop_succ (k : Z) : 0 <= k -> ploop (k + 1) = pbody k (ploop k).
Proof. intros Hk. unfold hwp_loop. now apply for_range_succ. Qed.

(** Every iteration pushes exactly one value. *)
Lemma hw_body_pushes (i : Z) (st : hw_state) :
  exists v, hw_predictions (body i st) = push (hw_predictions st) v.
Proof.
  unfold holtWinters_body.
  destruct (i =? 0); [|destruct (len <=? i)]; simpl; eexists; reflexivity.
Qed.

Lemma hw_loop_length (k : Z) : 0 <= k -> alen (hw_predictions (loop k)) = k.
Proof.
  revert k. apply Z_ind_from.
  - now rewrite hw_loop_nonpos by lia.
  - intros k Hk IH. rewrite hw_loop_succ by exact Hk.
    destruct (hw_body_pushes k (loop k)) as [v ->].
    rewrite alen_push. lia.
Qed.

(** Later iterations leave the values already pushed in place. *)
Lemma hw_loop_stable (i k : Z) :
  0 <= i -> i < k ->
  aget (hw_predictions (loop k)) i = aget (hw_predictions (loop (i + 1))) i.
Proof.
  intros Hi Hk. assert (Hk' : i + 1 <= k) by lia. clear Hk.
  revert k Hk'. apply Z_ind_from; [reflexivity|].
  intros k Hk IH. rewrite hw_loop_succ by lia.
  destruct (hw_body_pushes k (loop k)) as [v ->].
  rewrite aget_push_old; [exact IH|]. rewrite hw_loop_length by lia. lia.
Qed.

(** The forecast branch, taken for every [i >= len] once [len >= 1]. *)
Lemma hw_body_forecast (i : Z) (st : hw_state) :
  1 <= len -> len <= i ->
  body i st
  = mk_hw_state (smooth st) (trend st) (seasonals st)
      (push (hw_predictions st)
            (Num ((smooth st + Z2F (i - len + 1) * trend st)
                  + toNumber (aget (seasonals st) (jsmod i seasonLength)))%float)).
Proof.
  intros Hn Hi. unfold holtWinters_body.
  destruct (Z.eqb_spec i 0); [lia|].
  destruct (Z.leb_spec len i); [reflexivity|lia].
Qed.

(** The forecast branch updates neither the level, nor the trend, nor the
    seasonal indices: past the samples they stay as the last in-sample
    iteration left them. *)
Lemma hw_loop_frozen (k : Z) :
  1 <= len -> len <= k ->
  smooth (loop k) = smooth (loop len) /\
  trend (loop k) = trend (loop len) /\
  seasonals (loop k) = seasonals (loop len).
Proof.
  intros Hn. revert k. apply Z_ind_from; [auto|].
  intros k Hk (Hs & Ht & Hz).
  rewrite hw_loop_succ by lia. rewrite hw_body_forecast by lia.
  simpl. auto.
Qed.

Lemma hw_forecast_value (i k : Z) :
  1 <= len -> len <= i -> i < k ->
  aget (hw_predictions (loop k)) i
  = Num ((smooth (loop len) + Z2F (i - len + 1) * trend (loop len))
         + toNumber (aget (seasonals (loop len)) (jsmod i seasonLength)))%float.
Proof.
  intros Hn Hi Hk.
  rewrite hw_loop_stable by lia.
  rewrite hw_loop_succ by lia. rewrite hw_body_forecast by lia.
  destruct (hw_loop_frozen i Hn Hi) as (-> & -> & ->). simpl.
  match goal with
  | |- aget (push ?a ?v) _ = _ => pose proof (aget_push_new a v) as E
  end.
  rewrite hw_loop_length in E by lia. exact E.
Qed.

(** *** The two loops side by side *)

Lemma hw_sim_body (i : Z) (st : hw_state) (pst : hwp_state) :
  0 <= i -> hw_sim len i st pst -> hw_sim len (i + 1) (body i st) (pbody i pst).
Proof.
  intros Hi (Hs & Ht & Hz & Ho & Hp).
  unfold holtWinters_body, holtWintersPartitioned_body.
  rewrite Hs, Ht, Hz, Ho.
  destruct (Z.eqb_spec i 0) as [->|Hne]; [|destruct (Z.leb_spec len i) as [Hge|Hlt]];
    unfold hw_sim; simpl; repeat split; unfold push.
  - rewrite Hp by (pose proof (alen_nonneg (nums data)); lia).
    now rewrite !app_nil_r.
  - intros _. apply Hp. pose proof (alen_nonneg (nums data)); lia.
  - now rewrite app_assoc.
  - intros H. lia.
  - rewrite Hp by lia. now rewrite !app_nil_r.
  - intros _. apply Hp. lia.
Qed.

Lemma hw_sim_loop (k : Z) : hw_sim len k (loop k) (ploop k).
Proof.
  destruct (Z.le_gt_cases 0 k) as [Hk|Hk].
  - revert k Hk. apply Z_ind_from.
    + rewrite hw_loop_nonpos, hwp_loop_nonpos by lia.
      unfold hw_sim. simpl. auto.
    + intros k Hk IH. rewrite hw_loop_succ, hwp_loop_succ by lia.
      now apply hw_sim_body.
  - rewrite hw_loop_nonpos, hwp_loop_nonpos by lia.
    unfold hw_sim. simpl. auto.
Qed.

(** How the iterations are shared between the two partitioned arrays. *)
Lemma hwp_loop_lengths (k : Z) :
  1 <= len -> 0 <= k ->
  alen (p_smoothed (ploop k)) = Z.min k len /\
  alen (p_predictions (ploop k)) = Z.max 0 (k - len).
Proof.
  intros Hn. revert k. apply Z_ind_from.
  - rewrite hwp_loop_nonpos by lia. unfold hwp_init.
    cbn [p_smoothed p_predictions]. change (alen []) with 0. lia.
  - intros k Hk (Hs & Hp). rewrite hwp_loop_succ by lia.
    unfold holtWintersPartitioned_body.
    destruct (Z.eqb_spec k 0) as [->|Hne]; [|destruct (Z.leb_spec len k) as [Hge|Hlt]];
      cbn [p_smoothed p_predictions]; rewrite ?alen_push; lia.
Qed.

End MainLoop.

(** ** Sums *)

Lemma zrange_succ (k : Z) : 0 <= k -> zrange (k + 1) = zrange k ++ [k].
Proof.
  intros Hk. unfold zrange.
  replace (Z.to_nat (k + 1)) with (Datatypes.S (Z.to_nat k)) by lia.
  rewrite seq_S, map_app. simpl. now rewrite Z2Nat.id by exact Hk.
Qed.

(** A loop that adds [f i] to an accumulator computes [fsum]. *)
Lemma for_range_fsum (f : Z -> float) (k : Z) :
  for_range 0 k (fun i acc => (acc + f i)%float) 0%float = fsum f k.
Proof.
  destruct (Z.le_gt_cases 0 k) as [Hk|Hk].
  - revert k Hk. apply Z_ind_from; [reflexivity|].
    intros k Hk IH. rewrite for_range_succ by exact Hk.
    unfold fsum. rewrite zrange_succ by exact Hk.
    rewrite fold_left_app. simpl. f_equal. exact IH.
  - rewrite for_range_empty by lia. unfold fsum, zrange.
    replace (Z.to_nat k) with O by lia. reflexivity.
Qed.

Lemma toNumber_dget (d : list float) (i : Z) :
  0 <= i < alen (nums d) -> toNumber (dget d i) = at_index d i.
Proof. intros Hi. now rewrite (dget_in_range d i 0%float Hi). Qed.

(** The sum keeps the sign bit clear when every term does. *)
Lemma for_range_sign_clear (body : Z -> float -> float) (k : Z) :
  (forall i acc, sign_clear (Prim2SF acc) -> sign_clear (Prim2SF (body i acc))) ->
  sign_clear (Prim2SF (for_range 0 k body 0%float)).
Proof.
  intros Hb.
  destruct (Z.le_gt_cases 0 k) as [Hk|Hk].
  - apply (for_range_invariant (fun _ acc => sign_clear (Prim2SF acc)));
      [exact Hk|reflexivity|].
    intros i t _ Ht. now apply Hb.
  - rewrite for_range_empty by lia. reflexivity.
Qed.

(** ** Error metrics *)

Lemma metric_invalid_false (p a : list float) :
  metric_invalid (Some p) (Some a) = false
  <-> alen (nums p) <> 0 /\ alen (nums a) <> 0 /\ alen (nums p) = alen (nums a).
Proof.
  unfold metric_invalid.
  destruct (Z.eqb_spec (alen (nums p)) 0), (Z.eqb_spec (alen (nums a)) 0),
           (Z.eqb_spec (alen (nums p)) (alen (nums a))); simpl;
    split; try discriminate; try tauto; auto.
Qed.

Lemma sumSqError_valid (p a : list float) :
  metric_invalid (Some p) (Some a) = false ->
  sumSqError (Some p) (Some a) = for_range 0 (alen (nums p)) (sumSqError_body p a) 0%float.
Proof.
  intros H. apply metric_invalid_false in H as (Hp & Ha & Hpa). unfold sumSqError.
  destruct (Z.eqb_spec (alen (nums p)) 0); [contradiction|].
  destruct (Z.eqb_spec (alen (nums a)) 0); [contradiction|].
  destruct (Z.eqb_spec (alen (nums p)) (alen (nums a))); [reflexivity|contradiction].
Qed.

Lemma mse_valid (p a : list float) :
  metric_invalid (Some p) (Some a) = false ->
  mse (Some p) (Some a) = (sumSqError (Some p) (Some a) / Z2F (alen (nums p)))%float.
Proof.
  intros H. apply metric_invalid_false in H as (Hp & Ha & Hpa). unfold mse.
  destruct (Z.eqb_spec (alen (nums p)) 0); [contradiction|].
  destruct (Z.eqb_spec (alen (nums a)) 0); [contradiction|].
  destruct (Z.eqb_spec (alen (nums p)) (alen (nums a))); [reflexivity|contradiction].
Qed.

Lemma sumSqError_invalid (p a : option (list float)) :
  metric_invalid p a = true -> sumSqError p a = (-1)%float /\ mse p a = (-1)%float.
Proof.
  unfold metric_invalid, sumSqError, mse.
  destruct p as [p|]; [|auto].
  destruct (alen (nums p) =? 0); [auto|].
  destruct a as [a|]; [|auto].
  destruct (alen (nums a) =? 0); [auto|].
  simpl. intros ->. auto.
Qed.

(** A sum of squares has its sign bit clear, so it is never -1. *)
Lemma sumSqError_sign_clear (p a : list float) :
  metric_invalid (Some p) (Some a) = false ->
  sign_clear (Prim2SF (sumSqError (Some p) (Some a))).
Proof.
  intros H. rewrite sumSqError_valid by exact H.
  apply for_range_sign_clear. intros i acc Hacc. unfold sumSqError_body.
  apply add_sign_clear; [exact Hacc|apply square_sign_clear].
Qed.

Lemma mse_sign_clear (p a : list float) :
  metric_invalid (Some p) (Some a) = false ->
  sign_clear (Prim2SF (mse (Some p) (Some a))).
Proof.
  intros H. rewrite mse_valid by exact H.
  apply div_sign_clear; [now apply sumSqError_sign_clear|].
  apply Z2F_sign_clear, alen_nonneg.
Qed.

Lemma metric_invalid_sym (p a : option (list float)) :
  metric_invalid p a = metric_invalid a p.
Proof.
  destruct p as [p|], a as [a|]; try reflexivity. unfold metric_invalid.
  rewrite (Z.eqb_sym (alen (nums a)) (alen (nums p))).
  destruct (alen (nums p) =? 0), (alen (nums a) =? 0); reflexivity.
Qed.

(** * The claims *)

(** ** Single exponential smoothing *)

(** Absent data and one-element data give the empty sequence for every
    [alpha]; empty data does so only when [alpha] is rejected. *)
Lemma expSmooth_short_data (alpha : float) :
  expSmooth None alpha = [] /\
  (forall x, expSmooth (Some [x]) alpha = []) /\
  expSmooth (Some []) alpha
  = if expSmooth_bad_alpha alpha then [] else [Num 0; Undefined].
Proof.
  split; [reflexivity|]. split; [reflexivity|].
  unfold expSmooth. change (alen (nums []) =? 1) with false.
  destruct (expSmooth_bad_alpha alpha); reflexivity.
Qed.

(** C1, at the input where the source departs from it: on empty data and
    an accepted [alpha] the guard [data.length === 1] does not fire, and
    [expSmooth([], 0.5)] is the two-element array [[0, undefined]], not the
    empty sequence. *)
Theorem expSmooth_empty_data_not_rejected :
  expSmooth (Some []) 0.5 = [Num 0; Undefined].
Proof. vm_compute. reflexivity. Qed.

(** C5: for data of length [n >= 2] and [alpha] strictly inside (0,1),
    [expSmooth] returns [n] elements; element 0 is 0, element 1 is
    [data[0]], and element [i], for [2 <= i < n], is
    [alpha*data[i-1] + (1-alpha)*smoothed[i-1]]. *)
Theorem expSmooth_recurrence (data : list float) (alpha : float) (out : array) :
  2 <= alen (nums data) ->
  strictly_in01 alpha = true ->
  out = expSmooth (Some data) alpha ->
  alen out = alen (nums data) /\
  aget out 0 = Num 0 /\
  aget out 1 = Num (at_index data 0) /\
  forall i, 2 <= i < alen (nums data) ->
    aget out i = Num (alpha * at_index data (i - 1)
                      + (1 - alpha) * toNumber (aget out (i - 1)))%float.
Proof.
  intros Hn Ha ->.
  rewrite expSmooth_accepted by (auto using strictly_in01_accepted).
  destruct (expSmooth_loop_inv data alpha _ Hn) as (Hlen & H0 & H1 & Hrec).
  repeat split; auto.
  - rewrite H1. apply dget_in_range. lia.
  - intros i Hi. rewrite Hrec by exact Hi.
    now rewrite toNumber_dget by lia.
Qed.

Lemma expSmooth_recurrence_witness :
  let data := [1; 2; 4]%float in
  let out := expSmooth (Some data) 0.5 in
  alen out = 3 /\
  aget out 0 = Num 0 /\
  aget out 1 = Num 1 /\
  forall i, 2 <= i < 3 ->
    aget out i = Num (0.5 * at_index data (i - 1)
                      + (1 - 0.5) * toNumber (aget out (i - 1)))%float.
Proof.
  exact (expSmooth_recurrence [1; 2; 4]%float 0.5 _ ltac:(vm_compute; discriminate)
                              eq_refl eq_refl).
Defined.

(** C7: on data of length at least 2, [doubleExpSmooth] accepts 0 and 1
    for [alpha] and for [gamma] and returns a non-empty result (as long as
    the data), while [expSmooth] returns the empty sequence for [alpha = 0]
    and for [alpha = 1]. *)
Theorem boundary_asymmetry (data : list float) :
  2 <= alen (nums data) ->
  (forall alpha gamma : float,
      alpha = 0%float \/ alpha = 1%float ->
      gamma = 0%float \/ gamma = 1%float ->
      doubleExpSmooth (Some data) alpha gamma <> [] /\
      alen (doubleExpSmooth (Some data) alpha gamma) = alen (nums data)) /\
  expSmooth (Some data) 0 = [] /\
  expSmooth (Some data) 1 = [].
Proof.
  intros Hn. split; [|split].
  - intros alpha gamma Ha Hg.
    assert (Hlen : alen (doubleExpSmooth (Some data) alpha gamma) = alen (nums data)).
    { apply doubleExpSmooth_length; [exact Hn| |].
      - destruct Ha as [->| ->]; reflexivity.
      - destruct Hg as [->| ->]; reflexivity. }
    split; [|exact Hlen].
    intros E. rewrite E in Hlen. change (alen []) with 0 in Hlen. lia.
  - unfold expSmooth. destruct (alen (nums data) =? 1); reflexivity.
  - unfold expSmooth. destruct (alen (nums data) =? 1); reflexivity.
Qed.

Lemma boundary_asymmetry_witness :
  (forall alpha gamma : float,
      alpha = 0%float \/ alpha = 1%float ->
      gamma = 0%float \/ gamma = 1%float ->
      doubleExpSmooth (Some [3; 5]%float) alpha gamma <> [] /\
      alen (doubleExpSmooth (Some [3; 5]%float) alpha gamma) = 2) /\
  expSmooth (Some [3; 5]%float) 0 = [] /\
  expSmooth (Some [3; 5]%float) 1 = [].
Proof.
  exact (boundary_asymmetry [3; 5]%float ltac:(vm_compute; discriminate)).
Defined.

(** ** Holt-Winters *)

(** On accepted input with a nonzero season length both functions return
    what their main loop built. *)
Lemma holtWinters_accepted (data : list float) (alpha beta gamma : float)
      (seasonLength numPredictions : Z) :
  hw_rejects (Some data) alpha beta gamma = false -> seasonLength <> 0 ->
  holtWinters (Some data) alpha beta gamma seasonLength numPredictions
  = Some (hw_predictions (hw_loop data alpha beta gamma seasonLength
                                  (alen (nums data) + numPredictions))) /\
  holtWintersPartitioned (Some data) alpha beta gamma seasonLength numPredictions
  = Some (mk_partition
            (p_smoothed (hwp_loop data alpha beta gamma seasonLength
                                  (alen (nums data) + numPredictions)))
            (p_predictions (hwp_loop data alpha beta gamma seasonLength
                                     (alen (nums data) + numPredictions)))).
Proof.
  rewrite hw_rejects_check. intros Hr Hs.
  apply orb_false_iff in Hr as [Hn Hp].
  unfold holtWinters, holtWintersPartitioned. rewrite Hn, Hp.
  destruct (Z.eqb_spec seasonLength 0); [contradiction|]. auto.
Qed.

(** On rejected input both return their empty value, whatever the season
    length and the number of predictions. *)
Lemma holtWinters_rejected (data : option (list float)) (alpha beta gamma : float)
      (seasonLength numPredictions : Z) :
  hw_rejects data alpha beta gamma = true ->
  holtWinters data alpha beta gamma seasonLength numPredictions = Some [] /\
  holtWintersPartitioned data alpha beta gamma seasonLength numPredictions
  = Some EMPTY_PARTITION.
Proof.
  destruct data as [d|]; [|auto].
  rewrite hw_rejects_check. intros Hr.
  unfold holtWinters, holtWintersPartitioned.
  destruct (alen (nums d) <? 3); [auto|].
  simpl in Hr. rewrite Hr. auto.
Qed.

(** With a season length of 0 an accepted call does not return. *)
Lemma holtWinters_zero_season (data : list float) (alpha beta gamma : float)
      (numPredictions : Z) :
  hw_rejects (Some data) alpha beta gamma = false ->
  holtWinters (Some data) alpha beta gamma 0 numPredictions = None /\
  holtWintersPartitioned (Some data) alpha beta gamma 0 numPredictions = None.
Proof.
  rewrite hw_rejects_check. intros Hr.
  apply orb_false_iff in Hr as [Hn Hp].
  unfold holtWinters, holtWintersPartitioned. rewrite Hn, Hp. auto.
Qed.

Lemma in01_accepted (d : list float) (alpha beta gamma : float) :
  3 <= alen (nums d) ->
  in01 alpha = true -> in01 beta = true -> in01 gamma = true ->
  hw_rejects (Some d) alpha beta gamma = false.
Proof.
  intros Hn Ha Hb Hg. rewrite hw_rejects_check. unfold hw_bad_params.
  rewrite !outside01_in01, Ha, Hb, Hg.
  destruct (Z.ltb_spec (alen (nums d)) 3); [lia|reflexivity].
Qed.

(** C2: the [smoothed] and [predictions] fields of
    [holtWintersPartitioned], put end to end, are the sequence that
    [holtWinters] returns on the same arguments, for all arguments. *)
Theorem holtWintersPartitioned_concat
        (data : option (list float)) (alpha beta gamma : float)
        (seasonLength numPredictions : Z) :
  option_map (fun p => smoothed p ++ predictions p)
             (holtWintersPartitioned data alpha beta gamma seasonLength numPredictions)
  = holtWinters data alpha beta gamma seasonLength numPredictions.
Proof.
  destruct data as [d|]; [|reflexivity].
  unfold holtWinters, holtWintersPartitioned.
  destruct (alen (nums d) <? 3); [reflexivity|].
  destruct (hw_bad_params alpha beta gamma); [reflexivity|].
  destruct (seasonLength =? 0); [reflexivity|].
  destruct (hw_sim_loop d alpha beta gamma seasonLength (alen (nums d) + numPredictions))
    as (_ & _ & _ & H & _).
  cbn [option_map smoothed predictions]. now rewrite H.
Qed.

(** C3: on accepted input, every out-of-sample output, at position [i]
    with [n <= i < n + numPredictions], is
    [(smooth + m*trend) + seasonals[i % seasonLength]] with [m = i - n + 1],
    where [smooth], [trend] and [seasonals] are the state left by the last
    in-sample iteration; that state is the same after every later
    iteration.  Both functions return such an output whenever
    [seasonLength] is not 0. *)
Theorem holtWinters_forecast
        (data : list float) (alpha beta gamma : float)
        (seasonLength numPredictions : Z) :
  let n := alen (nums data) in
  let st := hw_loop data alpha beta gamma seasonLength n in
  let forecast := fun i =>
    Num ((smooth st + Z2F (i - n + 1) * trend st)
         + toNumber (aget (seasonals st) (jsmod i seasonLength)))%float in
  3 <= n -> in01 alpha = true -> in01 beta = true -> in01 gamma = true ->
  (seasonLength <> 0 ->
   exists out p,
     holtWinters (Some data) alpha beta gamma seasonLength numPredictions = Some out /\
     holtWintersPartitioned (Some data) alpha beta gamma seasonLength numPredictions
     = Some p) /\
  (forall out,
      holtWinters (Some data) alpha beta gamma seasonLength numPredictions = Some out ->
      forall i, n <= i < n + numPredictions -> aget out i = forecast i) /\
  (forall p,
      holtWintersPartitioned (Some data) alpha beta gamma seasonLength numPredictions
      = Some p ->
      forall i, n <= i < n + numPredictions -> aget (predictions p) (i - n) = forecast i) /\
  (forall k, n <= k ->
      let st' := hw_loop data alpha beta gamma seasonLength k in
      let pst' := hwp_loop data alpha beta gamma seasonLength k in
      smooth st' = smooth st /\ trend st' = trend st /\ seasonals st' = seasonals st /\
      p_smooth pst' = smooth st /\ p_trend pst' = trend st /\
      p_seasonals pst' = seasonals st).
Proof.
  intros n st forecast Hn Ha Hb Hg.
  pose proof (in01_accepted data alpha beta gamma Hn Ha Hb Hg) as Hacc.
  assert (Hout : forall i, n <= i < n + numPredictions ->
            aget (hw_predictions (hw_loop data alpha beta gamma seasonLength
                                          (n + numPredictions))) i = forecast i).
  { intros i Hi. apply hw_forecast_value; fold n; lia. }
  split; [|split; [|split]].
  - intros Hs.
    destruct (holtWinters_accepted data alpha beta gamma seasonLength numPredictions
                                   Hacc Hs) as [E1 E2].
    eauto.
  - intros out E i Hi.
    destruct (Z.eq_dec seasonLength 0) as [->|Hs].
    + destruct (holtWinters_zero_season data alpha beta gamma numPredictions Hacc)
        as [E0 _].
      congruence.
    + destruct (holtWinters_accepted data alpha beta gamma seasonLength numPredictions
                                     Hacc Hs) as [E1 _].
      rewrite E1 in E. injection E as <-. now apply Hout.
  - intros p E i Hi.
    destruct (Z.eq_dec seasonLength 0) as [->|Hs].
    + destruct (holtWinters_zero_season data alpha beta gamma numPredictions Hacc)
        as [_ E0].
      congruence.
    + destruct (holtWinters_accepted data alpha beta gamma seasonLength numPredictions
                                     Hacc Hs) as [_ E2].
      rewrite E2 in E. injection E as <-. simpl.
      rewrite <- (Hout i Hi).
      destruct (hw_sim_loop data alpha beta gamma seasonLength (n + numPredictions))
        as (_ & _ & _ & -> & _).
      destruct (hwp_loop_lengths data alpha beta gamma seasonLength (n + numPredictions))
        as [Hs' _]; [fold n; lia|lia|].
      fold n in Hs'. rewrite aget_app_right by lia.
      f_equal. lia.
  - intros k Hk st' pst'.
    destruct (hw_loop_frozen data alpha beta gamma seasonLength k) as (H1 & H2 & H3);
      [fold n; lia|exact Hk|].
    destruct (hw_sim_loop data alpha beta gamma seasonLength k) as (S1 & S2 & S3 & _).
    subst st' pst' st n. cbv zeta.
    rewrite <- S1, <- S2, <- S3. auto 7.
Qed.

Lemma holtWinters_forecast_witness :
  let data := [1; 2; 3; 4]%float in
  let st := hw_loop data 0.5 0.5 0.5 2 4 in
  exists out,
    holtWinters (Some data) 0.5 0.5 0.5 2 3 = Some out /\
    aget out 4 = Num ((smooth st + Z2F 1 * trend st)
                      + toNumber (aget (seasonals st) 0))%float /\
    aget out 6 = Num ((smooth st + Z2F 3 * trend st)
                      + toNumber (aget (seasonals st) 0))%float.
Proof.
  cbv zeta.
  destruct (holtWinters_forecast [1; 2; 3; 4]%float 0.5 0.5 0.5 2 3
              ltac:(vm_compute; discriminate) eq_refl eq_refl eq_refl)
    as (Hex & Hout & _).
  destruct (Hex ltac:(discriminate)) as (out & _ & E & _).
  exists out. split; [exact E|]. split.
  - apply (Hout out E 4). change (alen (nums [1; 2; 3; 4]%float)) with 4. lia.
  - apply (Hout out E 6). change (alen (nums [1; 2; 3; 4]%float)) with 4. lia.
Defined.

(** C4: when [2*seasonLength <= data.length], the initial trend of Phase A
    (the trend on entry to the main loop of either function) is the sum
    over [i] in [[0, seasonLength)] of
    [(data[i+seasonLength] - data[i]) / seasonLength], divided by
    [seasonLength] again. *)
Theorem initialTrend_formula (data : list float) (seasonLength : Z) :
  2 * seasonLength <= alen (nums data) ->
  trend (hw_init data seasonLength) = spec_initialTrend data seasonLength /\
  p_trend (hwp_init data seasonLength) = spec_initialTrend data seasonLength.
Proof.
  intros Hs.
  enough (H : initialTrend data seasonLength = spec_initialTrend data seasonLength)
    by (split; exact H).
  unfold initialTrend, spec_initialTrend. f_equal.
  rewrite <- for_range_fsum. apply for_range_ext.
  intros i acc Hi. unfold initialTrend_body.
  now rewrite !toNumber_dget by lia.
Qed.

Lemma initialTrend_formula_witness :
  trend (hw_init [1; 2; 4; 8]%float 2) = spec_initialTrend [1; 2; 4; 8]%float 2 /\
  p_trend (hwp_init [1; 2; 4; 8]%float 2) = spec_initialTrend [1; 2; 4; 8]%float 2.
Proof.
  exact (initialTrend_formula [1; 2; 4; 8]%float 2 ltac:(vm_compute; discriminate)).
Defined.

(** The value of that initial trend on a small series: the deltas are 3
    and 6, each halved and summed to 4.5, and halved again. *)
Example initialTrend_example : initialTrend [1; 2; 4; 8]%float 2 = 2.25%float.
Proof. vm_compute. reflexivity. Qed.

(** C6 as stated fails when [seasonLength] is 0: the input below is valid
    in the claim's sense, yet [holtWinters] returns no sequence at all. *)
Lemma holtWinters_lengths_fail_zero_season :
  let data := [1; 2; 3]%float in
  3 <= alen (nums data) /\ in01 0.5 = true /\ 0 <= 0 /\
  ~ (exists out,
        holtWinters (Some data) 0.5 0.5 0.5 0 0 = Some out /\
        alen out = alen (nums data) + 0).
Proof.
  cbv zeta. repeat split; try (vm_compute; discriminate).
  intros (out & E & _). vm_compute in E. discriminate.
Qed.

(** C6, amended: for data of length [n >= 3], [alpha], [beta], [gamma] in
    [[0,1]], [numPredictions >= 0] and a nonzero [seasonLength],
    [holtWinters] returns [n + numPredictions] values and
    [holtWintersPartitioned] returns [n] smoothed values and
    [numPredictions] predictions. *)
Theorem holtWinters_lengths
        (data : list float) (alpha beta gamma : float)
        (seasonLength numPredictions : Z) :
  3 <= alen (nums data) ->
  in01 alpha = true -> in01 beta = true -> in01 gamma = true ->
  0 <= numPredictions ->
  seasonLength <> 0 ->
  exists out p,
    holtWinters (Some data) alpha beta gamma seasonLength numPredictions = Some out /\
    alen out = alen (nums data) + numPredictions /\
    holtWintersPartitioned (Some data) alpha beta gamma seasonLength numPredictions
    = Some p /\
    alen (smoothed p) = alen (nums data) /\
    alen (predictions p) = numPredictions.
Proof.
  intros Hn Ha Hb Hg Hp Hs.
  pose proof (in01_accepted data alpha beta gamma Hn Ha Hb Hg) as Hacc.
  destruct (holtWinters_accepted data alpha beta gamma seasonLength numPredictions
                                 Hacc Hs) as [E1 E2].
  do 2 eexists. split; [exact E1|]. split; [|split; [exact E2|]].
  - apply hw_loop_length. lia.
  - cbn [smoothed predictions].
    destruct (hwp_loop_lengths data alpha beta gamma seasonLength
                               (alen (nums data) + numPredictions)) as [L1 L2];
      [lia|lia|].
    rewrite L1, L2. lia.
Qed.

Lemma holtWinters_lengths_witness :
  exists out p,
    holtWinters (Some [1; 2; 3; 4]%float) 0.5 0.5 0.5 2 3 = Some out /\
    alen out = 4 + 3 /\
    holtWintersPartitioned (Some [1; 2; 3; 4]%float) 0.5 0.5 0.5 2 3 = Some p /\
    alen (smoothed p) = 4 /\
    alen (predictions p) = 3.
Proof.
  exact (holtWinters_lengths [1; 2; 3; 4]%float 0.5 0.5 0.5 2 3
           ltac:(vm_compute; discriminate) eq_refl eq_refl eq_refl
           ltac:(vm_compute; discriminate) ltac:(discriminate)).
Defined.

(** C8 as stated fails for a negative [numPredictions]: on three samples
    with valid parameters and [numPredictions = -3] the main loop does not
    run, and both functions return their empty value on input that is not
    rejected. *)
Lemma holtWinters_empty_without_rejection :
  let data := Some [1; 2; 3]%float in
  hw_rejects data 0.5 0.5 0.5 = false /\
  holtWinters data 0.5 0.5 0.5 1 (-3) = Some [] /\
  holtWintersPartitioned data 0.5 0.5 0.5 1 (-3) = Some EMPTY_PARTITION.
Proof. vm_compute. auto. Qed.

(** C8, amended: [holtWinters] returns the empty sequence, and
    [holtWintersPartitioned] the empty partition, exactly when the data is
    absent or shorter than 3, or one of [alpha], [beta], [gamma] is NaN or
    outside [[0,1]], or else when [seasonLength] is nonzero and
    [data.length + numPredictions <= 0].  Nothing else about
    [seasonLength] or [numPredictions] is checked. *)
Theorem holtWinters_empty_iff
        (data : option (list float)) (alpha beta gamma : float)
        (seasonLength numPredictions : Z) :
  (holtWinters data alpha beta gamma seasonLength numPredictions = Some []
   <-> hw_rejects data alpha beta gamma = true
       \/ (seasonLength <> 0 /\ data_length data + numPredictions <= 0)) /\
  (holtWintersPartitioned data alpha beta gamma seasonLength numPredictions
   = Some EMPTY_PARTITION
   <-> hw_rejects data alpha beta gamma = true
       \/ (seasonLength <> 0 /\ data_length data + numPredictions <= 0)).
Proof.
  destruct (hw_rejects data alpha beta gamma) eqn:Hr.
  - destruct (holtWinters_rejected data alpha beta gamma seasonLength numPredictions Hr)
      as [E1 E2].
    split; split; auto.
  - destruct data as [d|]; [|discriminate]. cbn [data_length].
    destruct (Z.eq_dec seasonLength 0) as [->|Hs].
    + destruct (holtWinters_zero_season d alpha beta gamma numPredictions Hr) as [E1 E2].
      rewrite E1, E2. split; split; try discriminate;
        intros [H|[H _]]; try discriminate; contradiction.
    + destruct (holtWinters_accepted d alpha beta gamma seasonLength numPredictions Hr Hs)
        as [E1 E2].
      rewrite E1, E2.
      assert (Hn : 3 <= alen (nums d)).
      { rewrite hw_rejects_check in Hr. apply orb_false_iff in Hr as [Hr _].
        destruct (Z.ltb_spec (alen (nums d)) 3); [discriminate|lia]. }
      destruct (Z.le_gt_cases (alen (nums d) + numPredictions) 0) as [Hk|Hk].
      * rewrite hw_loop_nonpos, hwp_loop_nonpos by exact Hk.
        split; split; auto.
      * split; split; try (intros [H|[_ H]]; [discriminate|lia]); intros E; exfalso.
        -- injection E as E.
           pose proof (hw_loop_length d alpha beta gamma seasonLength
                                      (alen (nums d) + numPredictions)) as L.
           rewrite E in L. change (alen []) with 0 in L. lia.
        -- injection E as E _.
           destruct (hwp_loop_lengths d alpha beta gamma seasonLength
                                      (alen (nums d) + numPredictions)) as [L _];
             [lia|lia|].
           rewrite E in L. change (alen []) with 0 in L. lia.
Qed.

(** ** Error metrics *)

(** C9: [sumSqError] and [mse] return -1 exactly when a sequence is absent
    or empty or the lengths differ; otherwise [sumSqError] is the sum over
    [i] of [(predictions[i] - actual[i])^2] and [mse] is that sum divided by
    the common length. *)
Theorem metrics_spec (predictions actual : option (list float)) :
  (sumSqError predictions actual = (-1)%float
   <-> metric_invalid predictions actual = true) /\
  (mse predictions actual = (-1)%float
   <-> metric_invalid predictions actual = true) /\
  (forall p a,
      predictions = Some p -> actual = Some a ->
      metric_invalid predictions actual = false ->
      sumSqError predictions actual = spec_sumSq p a /\
      mse predictions actual
      = (sumSqError predictions actual / Z2F (alen (nums p)))%float).
Proof.
  split; [|split].
  - split; [|apply sumSqError_invalid].
    destruct (metric_invalid predictions actual) eqn:Hv; [reflexivity|].
    intros E. exfalso.
    destruct predictions as [p|]; [|discriminate].
    destruct actual as [a|]; [|discriminate].
    exact (sign_clear_not_minus_one _ (sumSqError_sign_clear p a Hv) E).
  - split; [|apply sumSqError_invalid].
    destruct (metric_invalid predictions actual) eqn:Hv; [reflexivity|].
    intros E. exfalso.
    destruct predictions as [p|]; [|discriminate].
    destruct actual as [a|]; [|discriminate].
    exact (sign_clear_not_minus_one _ (mse_sign_clear p a Hv) E).
  - intros p a -> -> Hv. split; [|now apply mse_valid].
    rewrite sumSqError_valid by exact Hv.
    apply metric_invalid_false in Hv as (Hp & Ha & Hpa).
    unfold spec_sumSq. rewrite <- for_range_fsum. apply for_range_ext.
    intros i acc Hi. unfold sumSqError_body.
    now rewrite !toNumber_dget by lia.
Qed.

(** The two metrics on a small pair: the errors are 1 and 2. *)
Example metrics_example :
  sumSqError (Some [1; 4]%float) (Some [2; 2]%float) = 5%float /\
  mse (Some [1; 4]%float) (Some [2; 2]%float) = 2.5%float /\
  sumSqError (Some [1; 4]%float) (Some [2]%float) = (-1)%float /\
  mse (Some []) (Some []) = (-1)%float.
Proof. vm_compute. auto. Qed.

(** C10: [sumSqError] is symmetric in its two arguments, valid or not. *)
Theorem sumSqError_symmetric (p a : option (list float)) :
  sumSqError p a = sumSqError a p.
Proof.
  destruct (metric_invalid p a) eqn:Hv.
  - destruct (sumSqError_invalid p a Hv) as [-> _].
    rewrite metric_invalid_sym in Hv.
    destruct (sumSqError_invalid a p Hv) as [-> _]. reflexivity.
  - destruct p as [p|]; [|discriminate].
    destruct a as [a|]; [|discriminate].
    rewrite (sumSqError_valid p a Hv).
    rewrite metric_invalid_sym in Hv. rewrite (sumSqError_valid a p Hv).
    apply metric_invalid_false in Hv as (_ & _ & ->).
    apply for_range_ext. intros i acc _. unfold sumSqError_body.
    now rewrite sq_sub_comm.
Qed.

(** * Further properties *)

(** The check of [expSmooth] rejects exactly NaN and the numbers that are
    not strictly inside (0,1). *)
Lemma expSmooth_bad_alpha_strictly_in01 (alpha : float) :
  expSmooth_bad_alpha alpha = negb (strictly_in01 alpha).
Proof.
  unfold expSmooth_bad_alpha, strictly_in01, geb.
  destruct (is_nan alpha) eqn:N; simpl.
  - destruct (0 <? alpha)%float eqn:L; [|reflexivity].
    apply ltb_true in L as (_ & Na & _). congruence.
  - destruct (alpha <=? 0)%float eqn:L0.
    + apply leb_iff in L0 as (_ & _ & ->). reflexivity.
    + destruct (0 <? alpha)%float eqn:G0.
      * simpl. destruct (1 <=? alpha)%float eqn:L1.
        -- apply leb_iff in L1 as (_ & _ & ->). reflexivity.
        -- destruct (alpha <? 1)%float eqn:G1; [reflexivity|].
           assert (H : (1 <=? alpha)%float = true) by (apply leb_iff; auto).
           congruence.
      * assert (H : (alpha <=? 0)%float = true) by (apply leb_iff; auto).
        congruence.
Qed.



(** The Holt-Winters tests of the reference suite: on the 72 samples with
    [alpha = 0.716], [beta = 0.029], [gamma = 0.993], a season of 12 and 10
    predictions, the last ten outputs of [holtWinters], and the predictions
    of [holtWintersPartitioned], are the expected forecasts to 4 decimals. *)
Theorem holtWinters_reference_suite :
  option_map (fun out => all_close_to_4 (skipn 72 out) expected_forecasts)
             (holtWinters (Some TEST_SERIES) 0.716 0.029 0.993 12 10) = Some true /\
  option_map (fun p => all_close_to_4 (predictions p) expected_forecasts)
             (holtWintersPartitioned (Some TEST_SERIES) 0.716 0.029 0.993 12 10)
  = Some true.
Proof. split; vm_compute; reflexivity. Qed.

(** The first single-smoothing test of the reference suite, to the
    2 decimals it asks for. *)
Theorem expSmooth_reference_suite :
  let out := expSmooth (Some [6.4; 5.6; 7.8; 8.8; 11.0; 11.6; 16.7; 15.3; 21.6; 22.4]%float)
                       0.3 in
  alen out = 10 /\
  aget out 0 = Num 0 /\
  aget out 1 = Num 6.4 /\
  forallb (fun '(i, e) => (abs (e - toNumber (aget out i)) <? 0.005)%float)
          [(2, 6.16%float); (3, 6.652%float); (4, 7.296%float); (5, 8.407%float);
           (6, 9.365%float); (7, 11.565%float); (8, 12.685%float);
           (9, 15.360%float)] = true.
Proof. vm_compute. auto. Qed.

(** ** Double exponential smoothing: the recurrence *)

Lemma doubleExpSmooth_body_inv (data : list float) (alpha gamma : float)
      (i : Z) (st : array * array) :
  2 <= i -> doubleExpSmooth_inv data alpha gamma i st ->
  doubleExpSmooth_inv data alpha gamma (i + 1) (doubleExpSmooth_body data alpha gamma i st).
Proof.
  destruct st as [sm b]. unfold doubleExpSmooth_inv. cbn [fst snd].
  intros Hi (Ls & Lb & S0 & B0 & S1 & B1 & Hrec).
  unfold doubleExpSmooth_body.
  rewrite (aset_end sm) by (symmetry; exact Ls).
  match goal with
  | |- context [push sm ?v] => set (vs := v)
  end.
  rewrite (aset_end b) by (symmetry; exact Lb).
  cbn [fst snd].
  assert (Es : aget (push sm vs) i = vs)
    by (pose proof (aget_push_new sm vs) as E; now rewrite Ls in E).
  rewrite Es.
  rewrite (aget_push_old sm vs (i - 1)) by lia.
  match goal with
  | |- context [push b ?v] => set (vb := v)
  end.
  assert (Eb : aget (push b vb) i = vb)
    by (pose proof (aget_push_new b vb) as E; now rewrite Lb in E).
  refine (conj _ (conj _ (conj _ (conj _ (conj _ (conj _ _))))));
    rewrite ?alen_push; try lia;
    try (rewrite aget_push_old by lia; assumption).
  intros j Hj. destruct (Z.eq_dec j i) as [->|Hne].
  - rewrite Es, Eb, !aget_push_old by lia. split; reflexivity.
  - rewrite !aget_push_old by lia. apply Hrec. lia.
Qed.

(** X2 (spec 4.2): on accepted input [doubleExpSmooth] returns [n] values
    [smoothed] for which there is a trend sequence [b] of the same length
    with [smoothed[0] = 0], [b[0] = 0], [smoothed[1] = data[0]],
    [b[1] = data[1] - data[0]] and, for [2 <= i < n],
    [smoothed[i] = alpha*data[i] + (1-alpha)*(smoothed[i-1] + b[i-1])] and
    [b[i] = gamma*(smoothed[i] - smoothed[i-1]) + (1-gamma)*b[i-1]]. *)
Theorem doubleExpSmooth_recurrence (data : list float) (alpha gamma : float) :
  2 <= alen (nums data) -> in01 alpha = true -> in01 gamma = true ->
  exists b,
    doubleExpSmooth_inv data alpha gamma (alen (nums data))
                        (doubleExpSmooth (Some data) alpha gamma, b).
Proof.
  intros Hn Ha Hg. unfold doubleExpSmooth.
  destruct (Z.ltb_spec (alen (nums data)) 2); [lia|].
  rewrite !outside01_in01, Ha, Hg. cbn [negb].
  match goal with
  | |- context [fst ?r] => exists (snd r); rewrite <- (surjective_pairing r)
  end.
  apply (for_range_invariant (doubleExpSmooth_inv data alpha gamma)); [exact Hn| |].
  - unfold doubleExpSmooth_inv. cbn [fst snd].
    refine (conj _ (conj _ (conj _ (conj _ (conj _ (conj _ _)))))); try reflexivity.
    intros j Hj. lia.
  - intros i t Hi Ht. apply doubleExpSmooth_body_inv; [lia|exact Ht].
Qed.

Lemma doubleExpSmooth_recurrence_witness :
  exists b,
    doubleExpSmooth_inv [1; 2; 4]%float 0.5 1 3
                        (doubleExpSmooth (Some [1; 2; 4]%float) 0.5 1, b).
Proof.
  exact (doubleExpSmooth_recurrence [1; 2; 4]%float 0.5 1
           ltac:(vm_compute; discriminate) eq_refl eq_refl).
Defined.

(** ** Holt-Winters: the in-sample iterations *)



(** ** More on loops and arrays *)

(** A loop from [lo] is a loop from 0 on the shifted counter. *)
Lemma iter_from_shift {S : Type} (k : nat) (lo c : Z) (body : Z -> S -> S) (s : S) :
  iter_from k (lo + c) body s = iter_from k c (fun i => body (lo + i)) s.
Proof.
  revert c s. induction k as [|k IH]; intros c s; [reflexivity|].
  simpl. rewrite <- IH. f_equal. lia.
Qed.

Lemma for_range_shift {S : Type} (lo hi : Z) (body : Z -> S -> S) (s : S) :
  for_range lo hi body s = for_range 0 (hi - lo) (fun i => body (lo + i)) s.
Proof.
  unfold for_range. rewrite Z.sub_0_r.
  rewrite <- (iter_from_shift _ lo 0). now rewrite Z.add_0_r.
Qed.

(** A loop that appends [f i] at iteration [i] builds the table of [f]. *)
Lemma for_range_tabulate (body : Z -> array -> array) (f : Z -> float) (k : Z) :
  0 <= k ->
  (forall i a, 0 <= i < k -> alen a = i -> body i a = push a (Num (f i))) ->
  alen (for_range 0 k body []) = k /\
  forall i, 0 <= i < k -> aget (for_range 0 k body []) i = Num (f i).
Proof.
  intros Hk Hb.
  apply (for_range_invariant
           (fun i a => alen a = i /\ forall j, 0 <= j < i -> aget a j = Num (f j)));
    [exact Hk| |].
  - split; [reflexivity|]. intros j Hj. lia.
  - intros i a Hi [Hlen Hget]. rewrite (Hb i a Hi Hlen). split.
    + rewrite alen_push. lia.
    + intros j Hj. destruct (Z.eq_dec j i) as [->|Hne].
      * rewrite <- Hlen. apply aget_push_new.
      * rewrite aget_push_old by lia. apply Hget. lia.
Qed.

Lemma aget_nil (i : Z) : aget [] i = Undefined.
Proof. unfold aget. destruct (i <? 0); [reflexivity|]. now destruct (Z.to_nat i). Qed.

(** Past the end of the data, [data[i]] is [undefined]. *)
Lemma dget_out_of_range (d : list float) (i : Z) :
  alen (nums d) <= i -> dget d i = Undefined.
Proof.
  intros Hi. unfold dget, aget.
  pose proof (alen_nonneg (nums d)).
  destruct (Z.ltb_spec i 0); [reflexivity|].
  apply nth_overflow. unfold alen in Hi. lia.
Qed.

Lemma length_aset_nat_inside (a : array) (i : nat) (v : jsval) :
  (i < length a)%nat -> length (aset_nat a i v) = length a.
Proof.
  revert i. induction a as [|x a IH]; intros [|i] Hi; simpl in *; try lia.
  rewrite IH by lia. reflexivity.
Qed.

(** An assignment inside the array keeps its length. *)
Lemma alen_aset_inside (a : array) (i : Z) (v : jsval) :
  0 <= i < alen a -> alen (aset a i v) = alen a.
Proof.
  intros Hi. unfold aset, alen in *.
  destruct (Z.ltb_spec i 0); [reflexivity|].
  rewrite length_aset_nat_inside by lia. reflexivity.
Qed.

Lemma nth_aset_nat_other (a : array) (i j : nat) (v : jsval) :
  i <> j -> (j < length a)%nat -> nth j (aset_nat a i v) Undefined = nth j a Undefined.
Proof.
  revert i j. induction a as [|x a IH]; intros [|i] [|j] Hne Hj; simpl in *;
    try lia; try reflexivity.
  apply IH; lia.
Qed.

(** An assignment leaves the other elements as they were. *)
Lemma aget_aset_other (a : array) (i j : Z) (v : jsval) :
  0 <= i -> 0 <= j < alen a -> i <> j -> aget (aset a i v) j = aget a j.
Proof.
  intros Hi Hj Hne. unfold aget, aset, alen in *.
  destruct (Z.ltb_spec i 0); [lia|].
  destruct (Z.ltb_spec j 0); [lia|].
  apply nth_aset_nat_other; lia.
Qed.

Lemma firstn_push (a : array) (v : jsval) (k : nat) :
  (k <= length a)%nat -> firstn k (push a v) = firstn k a.
Proof.
  intros Hk. unfold push. rewrite firstn_app.
  replace (k - length a)%nat with O by lia. simpl. apply app_nil_r.
Qed.

Lemma dget_firstn (d : list float) (k : nat) (i : Z) :
  i < Z.of_nat k -> dget (firstn k d) i = dget d i.
Proof.
  intros Hi. unfold dget, aget, nums.
  destruct (Z.ltb_spec i 0); [reflexivity|].
  rewrite <- firstn_map, nth_firstn.
  destruct (Nat.ltb_spec (Z.to_nat i) k); [reflexivity|lia].
Qed.

(** ** More floating-point facts *)

(** NaN is absorbing for the four operations. *)
Lemma add_nan_l (x : float) : (nan + x = nan)%float.
Proof.
  apply Prim2SF_inj. rewrite add_spec.
  change (Prim2SF nan) with S754_nan. reflexivity.
Qed.

Lemma add_nan_r (x : float) : (x + nan = nan)%float.
Proof.
  apply Prim2SF_inj. rewrite add_spec.
  change (Prim2SF nan) with S754_nan. now destruct (Prim2SF x).
Qed.

Lemma sub_nan_l (x : float) : (nan - x = nan)%float.
Proof.
  apply Prim2SF_inj. rewrite sub_spec.
  change (Prim2SF nan) with S754_nan. reflexivity.
Qed.

Lemma sub_nan_r (x : float) : (x - nan = nan)%float.
Proof.
  apply Prim2SF_inj. rewrite sub_spec.
  change (Prim2SF nan) with S754_nan. now destruct (Prim2SF x).
Qed.

Lemma mul_nan_r (x : float) : (x * nan = nan)%float.
Proof.
  apply Prim2SF_inj. rewrite mul_spec.
  change (Prim2SF nan) with S754_nan. now destruct (Prim2SF x).
Qed.

Lemma div_nan_l (x : float) : (nan / x = nan)%float.
Proof.
  apply Prim2SF_inj. rewrite div_spec.
  change (Prim2SF nan) with S754_nan. reflexivity.
Qed.

(** A value with a clear sign bit is not below zero. *)
Lemma sign_clear_not_negative (x : float) :
  sign_clear (Prim2SF x) -> (x <? 0)%float = false.
Proof.
  rewrite ltb_spec. change (Prim2SF 0) with (S754_zero false).
  destruct (Prim2SF x) as [s|s| |s m e]; simpl; intros H; subst; reflexivity.
Qed.

(** A finite number is a zero or a finite value of the format. *)
Lemma is_finite_spec (x : float) :
  is_finite x = true ->
  (exists s, Prim2SF x = S754_zero s) \/ (exists s m e, Prim2SF x = S754_finite s m e).
Proof.
  unfold is_finite, is_infinity. intros H.
  apply negb_true_iff, orb_false_iff in H as [Hn Hi].
  rewrite FloatAxioms.eqb_spec, abs_spec in Hi.
  change (Prim2SF infinity) with (S754_infinity false) in Hi.
  destruct (Prim2SF x) as [s|s| |s m e] eqn:E.
  - left. eauto.
  - discriminate.
  - assert (Hx : is_nan x = true) by (apply is_nan_spec; exact E). congruence.
  - right. eauto.
Qed.

(** A finite number minus itself is zero. *)
Lemma sub_diag_finite (x : float) : is_finite x = true -> (x - x = 0)%float.
Proof.
  intros H. apply Prim2SF_inj. rewrite sub_spec.
  change (Prim2SF 0) with (S754_zero false).
  destruct (is_finite_spec x H) as [[s ->]|(s & m & e & ->)].
  - destruct s; reflexivity.
  - unfold SF64sub, SFsub. rewrite Z.sub_diag. reflexivity.
Qed.

Lemma for_range_split {S : Type} (lo mid hi : Z) (body : Z -> S -> S) (s : S) :
  lo <= mid -> mid <= hi ->
  for_range lo hi body s = for_range mid hi body (for_range lo mid body s).
Proof.
  intros Hlo. revert hi. apply Z_ind_from.
  - now rewrite (for_range_empty mid mid) by lia.
  - intros h Hh IH. rewrite !for_range_succ by lia. now rewrite IH.
Qed.

(** ** Single exponential smoothing: rejection and causality *)

Lemma expSmooth_loop_length (data : list float) (alpha : float) (lo n : Z) (sm : array) :
  alen sm = lo ->
  alen (for_range lo n (expSmooth_body data alpha) sm) = Z.max lo n.
Proof.
  intros Hlen. destruct (Z.le_gt_cases lo n) as [Hn|Hn].
  - rewrite Z.max_r by exact Hn.
    apply (for_range_invariant (fun i t => alen t = i)); [exact Hn|exact Hlen|].
    intros i t Hi Ht. unfold expSmooth_body.
    rewrite aset_end by (symmetry; exact Ht). rewrite alen_push. lia.
  - rewrite for_range_empty by lia. lia.
Qed.


(** X4: [expSmooth] returns the empty sequence exactly when the data is
    absent, or has exactly one element, or [alpha] is NaN or not strictly
    inside (0,1); every other result has [max(2, data.length)] elements
    (so two, [[0, undefined]], on empty data). *)
Theorem expSmooth_empty_iff (data : option (list float)) (alpha : float) :
  (expSmooth data alpha = []
   <-> data = None \/ data_length data = 1 \/ strictly_in01 alpha = false) /\
  (expSmooth data alpha <> [] ->
   alen (expSmooth data alpha) = Z.max 2 (data_length data)).
Proof.
  destruct data as [d|]; [|split; [split; auto|intros Hne; now elim Hne]].
  cbn [data_length]. unfold expSmooth.
  destruct (Z.eqb_spec (alen (nums d)) 1) as [H1|H1];
    [split; [split; auto|intros Hne; now elim Hne]|].
  rewrite expSmooth_bad_alpha_strictly_in01.
  destruct (strictly_in01 alpha); cbn [negb];
    [|split; [split; auto|intros Hne; now elim Hne]].
  assert (Hlen : alen (for_range 2 (alen (nums d)) (expSmooth_body d alpha)
                                 (aset (aset [] 0 (Num 0)) 1 (dget d 0)))
                 = Z.max 2 (alen (nums d)))
    by (apply expSmooth_loop_length; reflexivity).
  split; [|intros _; exact Hlen].
  split.
  - intros E. rewrite E in Hlen. change (alen []) with 0 in Hlen. lia.
  - intros [H|[H|H]]; [discriminate|contradiction|discriminate].
Qed.



(** ** Double exponential smoothing: rejection and causality *)

(** X6: [doubleExpSmooth] returns the empty sequence exactly when the data
    is absent or has fewer than 2 elements, or [alpha] or [gamma] is NaN or
    outside [[0,1]]; every other result is as long as the data. *)
Theorem doubleExpSmooth_empty_iff (data : option (list float)) (alpha gamma : float) :
  (doubleExpSmooth data alpha gamma = []
   <-> data = None \/ data_length data < 2
       \/ nan_or_outside01 alpha = true \/ nan_or_outside01 gamma = true) /\
  (doubleExpSmooth data alpha gamma <> [] ->
   alen (doubleExpSmooth data alpha gamma) = data_length data).
Proof.
  destruct data as [d|]; [|split; [split; auto|intros Hne; now elim Hne]].
  cbn [data_length]. rewrite !nan_or_outside01_check.
  destruct (Z.lt_ge_cases (alen (nums d)) 2) as [Hn|Hn].
  - unfold doubleExpSmooth. destruct (Z.ltb_spec (alen (nums d)) 2); [|lia].
    split; [split; auto|intros Hne; now elim Hne].
  - destruct (outside01 alpha) eqn:Ha.
    { unfold doubleExpSmooth. rewrite Ha.
      destruct (alen (nums d) <? 2); (split; [split; auto|intros Hne; now elim Hne]). }
    destruct (outside01 gamma) eqn:Hg.
    { unfold doubleExpSmooth. rewrite Ha, Hg.
      destruct (alen (nums d) <? 2); (split; [split; auto 6|intros Hne; now elim Hne]). }
    pose proof (doubleExpSmooth_length d alpha gamma Hn Ha Hg) as Hlen.
    split; [|intros _; exact Hlen].
    split.
    + intros E. rewrite E in Hlen. change (alen []) with 0 in Hlen. lia.
    + intros [H|[H|[H|H]]]; try discriminate. lia.
Qed.

Lemma doubleExpSmooth_loop_prefix (data : list float) (alpha gamma : float)
      (k n : Z) (st : array * array) :
  alen (fst st) = k -> alen (snd st) = k -> k <= n ->
  let r := for_range k n (doubleExpSmooth_body data alpha gamma) st in
  alen (fst r) = n /\ alen (snd r) = n /\ firstn (Z.to_nat k) (fst r) = fst st.
Proof.
  intros Hs Hb Hn.
  apply (for_range_invariant
           (fun i t => alen (fst t) = i /\ alen (snd t) = i
                       /\ firstn (Z.to_nat k) (fst t) = fst st));
    [exact Hn| |].
  - repeat split; try assumption.
    unfold alen in Hs. rewrite <- Hs, Nat2Z.id. apply firstn_all.
  - intros i [sm b] Hi (Hsm & Hbb & Hp). cbn [fst snd] in *.
    unfold doubleExpSmooth_body.
    rewrite (aset_end sm) by (symmetry; exact Hsm).
    rewrite (aset_end b) by (symmetry; exact Hbb).
    cbn [fst snd]. rewrite !alen_push. repeat split; try lia.
    rewrite firstn_push; [exact Hp|]. unfold alen in Hsm. lia.
Qed.

(** X7: [doubleExpSmooth] is causal.  For [2 <= k <= data.length], its
    first [k] outputs are its outputs on the first [k] samples. *)
Theorem doubleExpSmooth_causal (data : list float) (alpha gamma : float) (k : Z) :
  2 <= k <= alen (nums data) ->
  firstn (Z.to_nat k) (doubleExpSmooth (Some data) alpha gamma)
  = doubleExpSmooth (Some (firstn (Z.to_nat k) data)) alpha gamma.
Proof.
  intros Hk.
  assert (Hlk : alen (nums (firstn (Z.to_nat k) data)) = k).
  { rewrite alen_nums in *. rewrite length_firstn. lia. }
  unfold doubleExpSmooth. rewrite Hlk.
  destruct (Z.ltb_spec (alen (nums data)) 2); [lia|].
  destruct (Z.ltb_spec k 2); [lia|].
  destruct (outside01 alpha); [now destruct (Z.to_nat k)|].
  destruct (outside01 gamma); [now destruct (Z.to_nat k)|].
  rewrite (for_range_split 2 k (alen (nums data))) by lia.
  rewrite !dget_firstn by lia.
  match goal with
  | |- context [for_range 2 k ?f ?s] =>
    destruct (doubleExpSmooth_loop_prefix data alpha gamma 2 k s) as (L1 & L2 & _);
      [reflexivity|reflexivity|lia|];
    destruct (doubleExpSmooth_loop_prefix data alpha gamma k (alen (nums data))
                                          (for_range 2 k f s)) as (_ & _ & P);
      [exact L1|exact L2|lia|]
  end.
  rewrite P. f_equal.
  apply for_range_ext. intros i [sm b] Hi. unfold doubleExpSmooth_body.
  now rewrite dget_firstn by lia.
Qed.

Lemma doubleExpSmooth_causal_witness :
  firstn 3 (doubleExpSmooth (Some [1; 2; 4; 8; 16]%float) 0.5 0.25)
  = doubleExpSmooth (Some [1; 2; 4]%float) 0.5 0.25.
Proof.
  exact (doubleExpSmooth_causal [1; 2; 4; 8; 16]%float 0.5 0.25 3
           ltac:(vm_compute; split; discriminate)).
Defined.

(** ** Holt-Winters, Phase B *)

Lemma seasonAverages_table (data : list float) (seasonLength : Z) :
  0 < seasonLength ->
  let numSeasons := alen (nums data) / seasonLength in
  let avgs := for_range 0 numSeasons (seasonAverages_body data seasonLength) [] in
  alen avgs = numSeasons /\
  forall j, 0 <= j < numSeasons ->
    aget avgs j = Num (spec_seasonAverage data seasonLength j).
Proof.
  intros Hs numSeasons avgs.
  assert (Hq : 0 <= numSeasons) by (apply Z.div_pos; [apply alen_nonneg|exact Hs]).
  assert (Hm : seasonLength * numSeasons <= alen (nums data))
    by (apply Z.mul_div_le; exact Hs).
  apply for_range_tabulate; [exact Hq|].
  intros j a Hj _. unfold seasonAverages_body, spec_seasonAverage.
  do 3 f_equal.
  rewrite for_range_shift.
  replace (seasonLength * j + seasonLength - seasonLength * j) with seasonLength by lia.
  rewrite <- for_range_fsum. apply for_range_ext.
  intros t acc Ht. rewrite toNumber_dget; [reflexivity|]. nia.
Qed.

Lemma initialSeasonals_table (data : list float) (seasonLength : Z) :
  0 < seasonLength ->
  alen (initialSeasonals data seasonLength) = seasonLength /\
  forall i, 0 <= i < seasonLength ->
    aget (initialSeasonals data seasonLength) i
    = Num (spec_initialSeasonal data seasonLength i).
Proof.
  intros Hs.
  destruct (seasonAverages_table data seasonLength Hs) as [La Ha].
  assert (Hq : 0 <= alen (nums data) / seasonLength)
    by (apply Z.div_pos; [apply alen_nonneg|exact Hs]).
  assert (Hm : seasonLength * (alen (nums data) / seasonLength) <= alen (nums data))
    by (apply Z.mul_div_le; exact Hs).
  unfold initialSeasonals.
  apply for_range_tabulate; [lia|].
  intros i a Hi Hlen. unfold initialSeasonals_body, spec_initialSeasonal.
  rewrite aset_end by (symmetry; exact Hlen).
  do 3 f_equal.
  rewrite <- for_range_fsum. apply for_range_ext.
  intros j acc Hj. rewrite Ha by exact Hj.
  rewrite toNumber_dget; [reflexivity|]. nia.
Qed.

(** X8 (Phase B): for a positive [seasonLength], the seasonal indices on
    entry to the main loop of either function are [seasonLength] numbers,
    the one at offset [i] being the mean over the complete seasons [j] of
    [data[seasonLength*j + i]] minus the mean of season [j]; samples after
    the last complete season are not read. *)
Theorem initialSeasonals_formula (data : list float) (seasonLength : Z) :
  0 < seasonLength ->
  alen (seasonals (hw_init data seasonLength)) = seasonLength /\
  p_seasonals (hwp_init data seasonLength) = seasonals (hw_init data seasonLength) /\
  forall i, 0 <= i < seasonLength ->
    aget (seasonals (hw_init data seasonLength)) i
    = Num (spec_initialSeasonal data seasonLength i).
Proof.
  intros Hs. cbn [seasonals p_seasonals hw_init hwp_init].
  destruct (initialSeasonals_table data seasonLength Hs) as [L H]. auto.
Qed.

Lemma initialSeasonals_formula_witness :
  alen (seasonals (hw_init [1; 2; 4; 8; 16]%float 2)) = 2 /\
  aget (seasonals (hw_init [1; 2; 4; 8; 16]%float 2)) 1
  = Num (spec_initialSeasonal [1; 2; 4; 8; 16]%float 2 1).
Proof.
  destruct (initialSeasonals_formula [1; 2; 4; 8; 16]%float 2 eq_refl) as (L & _ & H).
  split; [exact L|]. apply H. split; [discriminate|reflexivity].
Defined.

(** ** Holt-Winters: the seasonal indices in the main loop *)

Lemma jsmod_bound (i seasonLength : Z) :
  0 <= i -> 0 < seasonLength -> 0 <= jsmod i seasonLength < seasonLength.
Proof. intros Hi Hs. unfold jsmod. now apply Z.rem_bound_pos. Qed.

(** What one iteration does to the seasonal indices: nothing, or one
    assignment at the index of its phase. *)
Lemma holtWinters_body_seasonals (data : list float) (alpha beta gamma : float)
      (seasonLength n i : Z) (st : hw_state) :
  seasonals (holtWinters_body data alpha beta gamma seasonLength n i st) = seasonals st
  \/ exists v,
      seasonals (holtWinters_body data alpha beta gamma seasonLength n i st)
      = aset (seasonals st) (jsmod i seasonLength) v.
Proof.
  unfold holtWinters_body.
  destruct (i =? 0); [now left|]. destruct (n <=? i); [now left|].
  right. eexists. reflexivity.
Qed.

Lemma hw_loop_seasonals_length (data : list float) (alpha beta gamma : float)
      (seasonLength k : Z) :
  0 < seasonLength ->
  alen (seasonals (hw_loop data alpha beta gamma seasonLength k)) = seasonLength.
Proof.
  intros Hs.
  assert (H0 : alen (seasonals (hw_init data seasonLength)) = seasonLength)
    by (apply initialSeasonals_table; exact Hs).
  destruct (Z.le_gt_cases 0 k) as [Hk|Hk];
    [|now rewrite hw_loop_nonpos by lia].
  revert k Hk. apply Z_ind_from; [now rewrite hw_loop_nonpos by lia|].
  intros k Hk IH. rewrite hw_loop_succ by exact Hk.
  destruct (holtWinters_body_seasonals data alpha beta gamma seasonLength
              (alen (nums data)) k (hw_loop data alpha beta gamma seasonLength k))
    as [->|[v ->]]; [exact IH|].
  rewrite alen_aset_inside; [exact IH|].
  rewrite IH. now apply jsmod_bound.
Qed.

(** X9: for a positive [seasonLength] the seasonal-index array keeps
    exactly [seasonLength] entries through the whole main loop, and
    iteration [i] leaves every entry other than the one at
    [i % seasonLength] as it was. *)
Theorem holtWinters_seasonals_circular
        (data : list float) (alpha beta gamma : float) (seasonLength : Z) :
  0 < seasonLength ->
  (forall k, alen (seasonals (hw_loop data alpha beta gamma seasonLength k))
             = seasonLength) /\
  (forall i j, 0 <= i -> 0 <= j < seasonLength -> j <> jsmod i seasonLength ->
     aget (seasonals (hw_loop data alpha beta gamma seasonLength (i + 1))) j
     = aget (seasonals (hw_loop data alpha beta gamma seasonLength i)) j).
Proof.
  intros Hs. split.
  - intros k. now apply hw_loop_seasonals_length.
  - intros i j Hi Hj Hne. rewrite hw_loop_succ by exact Hi.
    destruct (holtWinters_body_seasonals data alpha beta gamma seasonLength
                (alen (nums data)) i (hw_loop data alpha beta gamma seasonLength i))
      as [->|[v ->]]; [reflexivity|].
    apply aget_aset_other.
    + apply jsmod_bound; assumption.
    + now rewrite hw_loop_seasonals_length.
    + congruence.
Qed.

Lemma holtWinters_seasonals_circular_witness :
  alen (seasonals (hw_loop [1; 2; 4; 8; 16]%float 0.5 0.5 0.5 2 4)) = 2 /\
  aget (seasonals (hw_loop [1; 2; 4; 8; 16]%float 0.5 0.5 0.5 2 4)) 0
  = aget (seasonals (hw_loop [1; 2; 4; 8; 16]%float 0.5 0.5 0.5 2 3)) 0.
Proof.
  destruct (holtWinters_seasonals_circular [1; 2; 4; 8; 16]%float 0.5 0.5 0.5 2 eq_refl)
    as [L H].
  split; [exact (L 4)|].
  apply (H 3 0); [discriminate|split; [discriminate|reflexivity]|discriminate].
Defined.

(** ** Holt-Winters: the number of predictions *)

(** The outputs of the first [k] iterations are a prefix of the outputs of
    any longer run. *)
Lemma hw_loop_prefix (data : list float) (alpha beta gamma : float)
      (seasonLength k k' : Z) :
  0 <= k -> k <= k' ->
  hw_predictions (hw_loop data alpha beta gamma seasonLength k)
  = firstn (Z.to_nat k) (hw_predictions (hw_loop data alpha beta gamma seasonLength k')).
Proof.
  intros Hk. revert k'. apply Z_ind_from.
  - pose proof (hw_loop_length data alpha beta gamma seasonLength k Hk) as L.
    unfold alen in L. rewrite <- L at 2. rewrite Nat2Z.id. symmetry. apply firstn_all.
  - intros k' Hk' IH. rewrite hw_loop_succ by lia.
    destruct (hw_body_pushes data alpha beta gamma seasonLength k'
                             (hw_loop data alpha beta gamma seasonLength k')) as [v ->].
    rewrite firstn_push; [exact IH|].
    pose proof (hw_loop_length data alpha beta gamma seasonLength k') as L.
    unfold alen in L. lia.
Qed.

(** X10: asking for more predictions only appends.  On accepted input with
    a nonzero [seasonLength], the result for [numPredictions] is the first
    [n + numPredictions] values of the result for any larger number of
    predictions: smoothed values and nearer forecasts do not depend on the
    horizon asked for. *)
Theorem holtWinters_horizon_prefix
        (data : list float) (alpha beta gamma : float)
        (seasonLength numPredictions numPredictions' : Z) :
  3 <= alen (nums data) ->
  in01 alpha = true -> in01 beta = true -> in01 gamma = true ->
  seasonLength <> 0 ->
  0 <= numPredictions <= numPredictions' ->
  exists out out',
    holtWinters (Some data) alpha beta gamma seasonLength numPredictions = Some out /\
    holtWinters (Some data) alpha beta gamma seasonLength numPredictions' = Some out' /\
    out = firstn (Z.to_nat (alen (nums data) + numPredictions)) out'.
Proof.
  intros Hn Ha Hb Hg Hs Hp.
  pose proof (in01_accepted data alpha beta gamma Hn Ha Hb Hg) as Hacc.
  destruct (holtWinters_accepted data alpha beta gamma seasonLength numPredictions
                                 Hacc Hs) as [E _].
  destruct (holtWinters_accepted data alpha beta gamma seasonLength numPredictions'
                                 Hacc Hs) as [E' _].
  do 2 eexists. split; [exact E|]. split; [exact E'|].
  apply hw_loop_prefix; lia.
Qed.

Lemma holtWinters_horizon_prefix_witness :
  exists out out',
    holtWinters (Some [1; 2; 3; 4]%float) 0.5 0.5 0.5 2 1 = Some out /\
    holtWinters (Some [1; 2; 3; 4]%float) 0.5 0.5 0.5 2 3 = Some out' /\
    out = firstn 5 out'.
Proof.
  exact (holtWinters_horizon_prefix [1; 2; 3; 4]%float 0.5 0.5 0.5 2 1 3
           ltac:(vm_compute; discriminate) eq_refl eq_refl eq_refl
           ltac:(discriminate) ltac:(vm_compute; split; discriminate)).
Defined.

(** X11: the [smoothed] field of [holtWintersPartitioned] does not depend
    on [numPredictions]: for every [numPredictions >= 0] it is the sequence
    that [holtWinters] returns when asked for no prediction, and the
    [predictions] field is what [holtWinters] returns after its first [n]
    values. *)
Theorem holtWintersPartitioned_fields
        (data : list float) (alpha beta gamma : float)
        (seasonLength numPredictions : Z) :
  3 <= alen (nums data) ->
  in01 alpha = true -> in01 beta = true -> in01 gamma = true ->
  seasonLength <> 0 ->
  0 <= numPredictions ->
  exists p out0 out,
    holtWintersPartitioned (Some data) alpha beta gamma seasonLength numPredictions
    = Some p /\
    holtWinters (Some data) alpha beta gamma seasonLength 0 = Some out0 /\
    holtWinters (Some data) alpha beta gamma seasonLength numPredictions = Some out /\
    smoothed p = out0 /\
    predictions p = skipn (Z.to_nat (alen (nums data))) out.
Proof.
  intros Hn Ha Hb Hg Hs Hp.
  pose proof (in01_accepted data alpha beta gamma Hn Ha Hb Hg) as Hacc.
  destruct (holtWinters_accepted data alpha beta gamma seasonLength numPredictions
                                 Hacc Hs) as [E EP].
  destruct (holtWinters_accepted data alpha beta gamma seasonLength 0 Hacc Hs)
    as [E0 _].
  do 3 eexists. split; [exact EP|]. split; [exact E0|]. split; [exact E|].
  cbn [smoothed predictions].
  destruct (hw_sim_loop data alpha beta gamma seasonLength
                        (alen (nums data) + numPredictions)) as (_ & _ & _ & Hcat & _).
  destruct (hwp_loop_lengths data alpha beta gamma seasonLength
                             (alen (nums data) + numPredictions)) as [Ls _];
    [lia|lia|].
  rewrite Z.min_r in Ls by lia.
  assert (Ln : length (p_smoothed (hwp_loop data alpha beta gamma seasonLength
                                            (alen (nums data) + numPredictions)))
               = Z.to_nat (alen (nums data)))
    by (unfold alen in Ls |- *; lia).
  split.
  - rewrite Z.add_0_r.
    rewrite (hw_loop_prefix data alpha beta gamma seasonLength (alen (nums data))
                            (alen (nums data) + numPredictions)) by lia.
    rewrite Hcat, <- Ln, firstn_app, firstn_all, Nat.sub_diag. simpl.
    now rewrite app_nil_r.
  - rewrite Hcat, <- Ln. now rewrite skipn_app, skipn_all, Nat.sub_diag.
Qed.

Lemma holtWintersPartitioned_fields_witness :
  exists p out0 out,
    holtWintersPartitioned (Some [1; 2; 3; 4]%float) 0.5 0.5 0.5 2 3 = Some p /\
    holtWinters (Some [1; 2; 3; 4]%float) 0.5 0.5 0.5 2 0 = Some out0 /\
    holtWinters (Some [1; 2; 3; 4]%float) 0.5 0.5 0.5 2 3 = Some out /\
    smoothed p = out0 /\
    predictions p = skipn 4 out.
Proof.
  exact (holtWintersPartitioned_fields [1; 2; 3; 4]%float 0.5 0.5 0.5 2 3
           ltac:(vm_compute; discriminate) eq_refl eq_refl eq_refl
           ltac:(discriminate) ltac:(discriminate)).
Defined.

(** ** Holt-Winters: seasons that do not fit the data *)

(** When two seasons do not fit in the data, the last iteration of Phase A
    reads past the end, and the initial trend is NaN. *)
Lemma initialTrend_nan (data : list float) (seasonLength : Z) :
  0 < seasonLength -> alen (nums data) < 2 * seasonLength ->
  initialTrend data seasonLength = nan.
Proof.
  intros Hs Hn. unfold initialTrend.
  assert (E : for_range 0 seasonLength (initialTrend_body data seasonLength) 0%float
              = nan).
  { replace seasonLength with (seasonLength - 1 + 1) at 1 by lia.
    rewrite for_range_succ by lia. unfold initialTrend_body.
    rewrite (dget_out_of_range data (seasonLength - 1 + seasonLength)) by lia.
    cbn [toNumber]. now rewrite sub_nan_l, div_nan_l, add_nan_r. }
  rewrite E. apply div_nan_l.
Qed.

(** An in-sample iteration that starts from a NaN trend, or reads a NaN
    (or missing) seasonal index, leaves a NaN level and trend and outputs
    NaN. *)
Lemma holtWinters_body_nan (data : list float) (alpha beta gamma : float)
      (seasonLength n i : Z) (st : hw_state) :
  0 < i < n ->
  trend st = nan \/ toNumber (aget (seasonals st) (jsmod i seasonLength)) = nan ->
  let st' := holtWinters_body data alpha beta gamma seasonLength n i st in
  smooth st' = nan /\ trend st' = nan /\
  hw_predictions st' = push (hw_predictions st) (Num nan).
Proof.
  intros Hi Hc. unfold holtWinters_body.
  destruct (Z.eqb_spec i 0); [lia|]. destruct (Z.leb_spec n i); [lia|].
  cbn [smooth trend hw_predictions].
  match goal with
  | |- ?s = nan /\ _ => assert (Hs : s = nan)
  end.
  { destruct Hc as [->| ->].
    - now rewrite add_nan_r, mul_nan_r, add_nan_r.
    - now rewrite sub_nan_r, mul_nan_r, add_nan_l. }
  rewrite !Hs. rewrite sub_nan_l, mul_nan_r, !add_nan_l. auto.
Qed.

(** A forecast iteration from a NaN level outputs NaN. *)
Lemma holtWinters_body_forecast_nan (data : list float) (alpha beta gamma : float)
      (seasonLength n i : Z) (st : hw_state) :
  1 <= n -> n <= i -> smooth st = nan ->
  let st' := holtWinters_body data alpha beta gamma seasonLength n i st in
  smooth st' = nan /\ trend st' = trend st /\
  hw_predictions st' = push (hw_predictions st) (Num nan).
Proof.
  intros Hn Hi Hs. unfold holtWinters_body.
  destruct (Z.eqb_spec i 0); [lia|]. destruct (Z.leb_spec n i); [|lia].
  cbn [smooth trend hw_predictions]. rewrite Hs, !add_nan_l. auto.
Qed.

(** The value that iteration [i] pushed is the output at position [i]. *)
Lemma hw_output_pushed (data : list float) (alpha beta gamma : float)
      (seasonLength i k : Z) (v : jsval) :
  0 <= i -> i < k ->
  hw_predictions (hw_loop data alpha beta gamma seasonLength (i + 1))
  = push (hw_predictions (hw_loop data alpha beta gamma seasonLength i)) v ->
  aget (hw_predictions (hw_loop data alpha beta gamma seasonLength k)) i = v.
Proof.
  intros Hi Hk E. rewrite hw_loop_stable by lia. rewrite E.
  pose proof (aget_push_new (hw_predictions
                               (hw_loop data alpha beta gamma seasonLength i)) v) as G.
  now rewrite hw_loop_length in G by lia.
Qed.

Section ShortSeason.

Variables (data : list float) (alpha beta gamma : float) (seasonLength : Z).
Hypothesis Hn : 3 <= alen (nums data).
Hypothesis Hshort : seasonLength < 0 \/ alen (nums data) < 2 * seasonLength.

Local Abbreviation loop := (hw_loop data alpha beta gamma seasonLength).

Lemma short_season_first :
  trend (loop 1) = nan
  \/ toNumber (aget (seasonals (loop 1)) (jsmod 1 seasonLength)) = nan.
Proof.
  pose proof (hw_loop_succ data alpha beta gamma seasonLength 0 (Z.le_refl 0)) as E.
  change (0 + 1) with 1 in E. rewrite E.
  rewrite hw_loop_nonpos by lia. unfold holtWinters_body.
  cbn [Z.eqb trend seasonals hw_init].
  destruct Hshort as [Hneg|Hbig].
  - right. unfold initialSeasonals.
    rewrite (for_range_empty 0 seasonLength) by lia.
    now rewrite aget_nil.
  - left. apply initialTrend_nan; lia.
Qed.

(** From the second iteration on, level and trend are NaN and so is every
    value pushed. *)
Lemma short_season_step (i : Z) :
  1 <= i ->
  smooth (loop (i + 1)) = nan /\
  (i < alen (nums data) -> trend (loop (i + 1)) = nan) /\
  (alen (nums data) <= i -> trend (loop (i + 1)) = trend (loop i)) /\
  hw_predictions (loop (i + 1)) = push (hw_predictions (loop i)) (Num nan).
Proof.
  revert i. apply Z_ind_from.
  - rewrite hw_loop_succ by lia.
    destruct (holtWinters_body_nan data alpha beta gamma seasonLength
                (alen (nums data)) 1 (loop 1)) as (S1 & T1 & P1);
      [lia|exact short_season_first|].
    repeat split; auto. lia.
  - intros i Hi (Si & Ti & Ti' & _).
    rewrite (hw_loop_succ data alpha beta gamma seasonLength (i + 1)) by lia.
    destruct (Z.lt_ge_cases (i + 1) (alen (nums data))) as [Hlt|Hge].
    + destruct (holtWinters_body_nan data alpha beta gamma seasonLength
                  (alen (nums data)) (i + 1) (loop (i + 1))) as (S1 & T1 & P1);
        [lia|left; apply Ti; lia|].
      repeat split; auto. lia.
    + destruct (holtWinters_body_forecast_nan data alpha beta gamma seasonLength
                  (alen (nums data)) (i + 1) (loop (i + 1))) as (S1 & T1 & P1);
        [lia|lia|exact Si|].
      repeat split; auto. lia.
Qed.

Lemma short_season_outputs (k : Z) :
  (0 < k -> aget (hw_predictions (loop k)) 0 = Num (at_index data 0)) /\
  (forall i, 1 <= i < k -> aget (hw_predictions (loop k)) i = Num nan).
Proof.
  split.
  - intros Hk. apply hw_output_pushed; [lia|exact Hk|].
    rewrite hw_loop_succ by lia. unfold holtWinters_body. cbn [Z.eqb hw_predictions].
    now rewrite (dget_in_range data 0 0%float) by lia.
  - intros i Hi. apply hw_output_pushed; [lia|lia|].
    apply short_season_step. lia.
Qed.

End ShortSeason.

(** X12: seasons that do not fit.  On accepted input, when [seasonLength]
    is negative or [2*seasonLength > data.length] (Phase A then reads past
    the end of the data), [holtWinters] still returns its
    [n + numPredictions] values, but only the first, [data[0]], is
    meaningful: every other smoothed value and every forecast is NaN. *)
Theorem holtWinters_short_season_nan
        (data : list float) (alpha beta gamma : float)
        (seasonLength numPredictions : Z) :
  3 <= alen (nums data) ->
  in01 alpha = true -> in01 beta = true -> in01 gamma = true ->
  0 <= numPredictions ->
  seasonLength < 0 \/ alen (nums data) < 2 * seasonLength ->
  exists out,
    holtWinters (Some data) alpha beta gamma seasonLength numPredictions = Some out /\
    alen out = alen (nums data) + numPredictions /\
    aget out 0 = Num (at_index data 0) /\
    forall i, 1 <= i < alen (nums data) + numPredictions -> aget out i = Num nan.
Proof.
  intros Hn Ha Hb Hg Hp Hshort.
  pose proof (in01_accepted data alpha beta gamma Hn Ha Hb Hg) as Hacc.
  assert (Hs : seasonLength <> 0) by lia.
  destruct (holtWinters_accepted data alpha beta gamma seasonLength numPredictions
                                 Hacc Hs) as [E _].
  eexists. split; [exact E|].
  destruct (short_season_outputs data alpha beta gamma seasonLength Hn Hshort
                                 (alen (nums data) + numPredictions)) as [H0 H1].
  split; [apply hw_loop_length; lia|]. split; [apply H0; lia|exact H1].
Qed.

Lemma holtWinters_short_season_nan_witness :
  exists out,
    holtWinters (Some [1; 2; 3]%float) 0.5 0.5 0.5 2 2 = Some out /\
    alen out = 3 + 2 /\
    aget out 0 = Num 1 /\
    forall i, 1 <= i < 3 + 2 -> aget out i = Num nan.
Proof.
  exact (holtWinters_short_season_nan [1; 2; 3]%float 0.5 0.5 0.5 2 2
           ltac:(vm_compute; discriminate) eq_refl eq_refl eq_refl
           ltac:(discriminate) (or_intror eq_refl)).
Defined.

(** ** Error metrics: sign, identical sequences, symmetry *)

(** X13: on valid input neither metric is negative: the comparison
    [result < 0] is false (the result is a non-negative number, possibly
    infinite, or NaN when the data make it so).  Only the sentinel -1 of
    invalid input is below zero. *)
Theorem metrics_not_negative (predictions actual : option (list float)) :
  metric_invalid predictions actual = false ->
  (sumSqError predictions actual <? 0)%float = false /\
  (mse predictions actual <? 0)%float = false.
Proof.
  intros Hv.
  destruct predictions as [p|]; [|discriminate].
  destruct actual as [a|]; [|discriminate].
  split; apply sign_clear_not_negative.
  - now apply sumSqError_sign_clear.
  - now apply mse_sign_clear.
Qed.

Lemma metrics_not_negative_witness :
  (sumSqError (Some [1; 4]%float) (Some [2; 2]%float) <? 0)%float = false /\
  (mse (Some [1; 4]%float) (Some [2; 2]%float) <? 0)%float = false.
Proof.
  exact (metrics_not_negative (Some [1; 4]%float) (Some [2; 2]%float) eq_refl).
Defined.

(** X14: a non-empty sequence of finite numbers has squared error 0
    against itself. *)
Theorem sumSqError_self (p : list float) :
  p <> [] -> forallb is_finite p = true -> sumSqError (Some p) (Some p) = 0%float.
Proof.
  intros Hne Hfin.
  assert (Hv : metric_invalid (Some p) (Some p) = false).
  { apply metric_invalid_false.
    assert (alen (nums p) <> 0)
      by (rewrite alen_nums; destruct p; [contradiction|simpl; lia]).
    auto. }
  rewrite sumSqError_valid by exact Hv.
  destruct (Z.le_gt_cases 0 (alen (nums p))) as [Hp|Hp];
    [|pose proof (alen_nonneg (nums p)); lia].
  apply (for_range_invariant (fun _ acc => acc = 0%float)); [exact Hp|reflexivity|].
  intros i acc Hi ->. unfold sumSqError_body.
  rewrite toNumber_dget by exact Hi.
  rewrite sub_diag_finite; [reflexivity|].
  rewrite forallb_forall in Hfin. apply Hfin.
  unfold at_index. apply nth_In. rewrite alen_nums in Hi. lia.
Qed.

Lemma sumSqError_self_witness : sumSqError (Some [1; 4]%float) (Some [1; 4]%float) = 0%float.
Proof.
  exact (sumSqError_self [1; 4]%float ltac:(discriminate) eq_refl).
Defined.

(** The squared error with the arguments exchanged. *)
Lemma sumSqError_swap (p a : option (list float)) :
  sumSqError p a = sumSqError a p.
Proof.
  destruct (metric_invalid p a) eqn:Hv.
  - destruct (sumSqError_invalid p a Hv) as [-> _].
    rewrite metric_invalid_sym in Hv.
    now destruct (sumSqError_invalid a p Hv) as [-> _].
  - destruct p as [p|]; [|discriminate].
    destruct a as [a|]; [|discriminate].
    rewrite (sumSqError_valid p a Hv).
    rewrite metric_invalid_sym in Hv. rewrite (sumSqError_valid a p Hv).
    apply metric_invalid_false in Hv as (_ & _ & ->).
    apply for_range_ext. intros i acc _. unfold sumSqError_body.
    now rewrite sq_sub_comm.
Qed.

(** X15: [mse] is symmetric in its two arguments, valid or not. *)
Theorem mse_symmetric (p a : option (list float)) : mse p a = mse a p.
Proof.
  destruct (metric_invalid p a) eqn:Hv.
  - destruct (sumSqError_invalid p a Hv) as [_ ->].
    rewrite metric_invalid_sym in Hv.
    now destruct (sumSqError_invalid a p Hv) as [_ ->].
  - destruct p as [p|]; [|discriminate].
    destruct a as [a|]; [|discriminate].
    rewrite (mse_valid p a Hv), (sumSqError_swap (Some p) (Some a)).
    rewrite metric_invalid_sym in Hv. rewrite (mse_valid a p Hv).
    apply metric_invalid_false in Hv as (_ & _ & ->). reflexivity.
Qed.

(** ** Holt-Winters: the first output *)

Lemma aget_app_left (a b : array) (i : Z) : i < alen a -> aget (a ++ b) i = aget a i.
Proof.
  unfold aget, alen. intros Hi.
  destruct (Z.ltb_spec i 0); [reflexivity|]. apply app_nth1. lia.
Qed.

(** X16: on accepted input with a nonzero [seasonLength] and
    [numPredictions >= 0], the first value returned by [holtWinters], and
    the first smoothed value of [holtWintersPartitioned], is [data[0]]
    itself, whatever the parameters. *)
Theorem holtWinters_first_output
        (data : list float) (alpha beta gamma : float)
        (seasonLength numPredictions : Z) :
  3 <= alen (nums data) ->
  in01 alpha = true -> in01 beta = true -> in01 gamma = true ->
  seasonLength <> 0 ->
  0 <= numPredictions ->
  exists out p,
    holtWinters (Some data) alpha beta gamma seasonLength numPredictions = Some out /\
    holtWintersPartitioned (Some data) alpha beta gamma seasonLength numPredictions
    = Some p /\
    aget out 0 = Num (at_index data 0) /\
    aget (smoothed p) 0 = Num (at_index data 0).
Proof.
  intros Hn Ha Hb Hg Hs Hp.
  pose proof (in01_accepted data alpha beta gamma Hn Ha Hb Hg) as Hacc.
  destruct (holtWinters_accepted data alpha beta gamma seasonLength numPredictions
                                 Hacc Hs) as [E EP].
  do 2 eexists. split; [exact E|]. split; [exact EP|].
  assert (H0 : aget (hw_predictions (hw_loop data alpha beta gamma seasonLength
                                             (alen (nums data) + numPredictions))) 0
               = Num (at_index data 0)).
  { apply hw_output_pushed; [lia|lia|].
    rewrite hw_loop_succ by lia. unfold holtWinters_body. cbn [Z.eqb hw_predictions].
    now rewrite (dget_in_range data 0 0%float) by lia. }
  split; [exact H0|]. cbn [smoothed].
  destruct (hw_sim_loop data alpha beta gamma seasonLength
                        (alen (nums data) + numPredictions)) as (_ & _ & _ & Hcat & _).
  destruct (hwp_loop_lengths data alpha beta gamma seasonLength
                             (alen (nums data) + numPredictions)) as [Ls _];
    [lia|lia|].
  rewrite Hcat in H0. rewrite aget_app_left in H0; [exact H0|]. lia.
Qed.

Lemma holtWinters_first_output_witness :
  exists out p,
    holtWinters (Some [1; 2; 3; 4]%float) 0.5 0.5 0.5 2 3 = Some out /\
    holtWintersPartitioned (Some [1; 2; 3; 4]%float) 0.5 0.5 0.5 2 3 = Some p /\
    aget out 0 = Num 1 /\
    aget (smoothed p) 0 = Num 1.
Proof.
  exact (holtWinters_first_output [1; 2; 3; 4]%float 0.5 0.5 0.5 2 3
           ltac:(vm_compute; discriminate) eq_refl eq_refl eq_refl
           ltac:(discriminate) ltac:(discriminate)).
Defined.
